(** * A shallow embedding of the AI capture gateway

    The development follows the packages of the repository:
    [storage] (records and queries), [config], [storage/memory] (the
    in-memory store), [internal/api] (the REST handlers) and
    [internal/proxy] (the capture gateway).

    Conventions.
    - A Go [string] is a Rocq [string] (a sequence of bytes); [len] is
      [String.length].
    - Go's [int] and [int64] are 64-bit two's complement integers, modelled
      as [Z] with the wrap-around written out ([wrap64]).
    - A [time.Time] is the instant it denotes, as a [Z]; [Before] and
      [After] compare instants.
    - Functions of Go's standard library whose result the program does not
      determine (map iteration order, the unstable [sort.Slice], the JSON
      encoder, ...) are the fields of the class [GoLib], with the part of
      their documented contract that the proofs use. *)

From Stdlib Require Import ZArith Ascii String.
From stdpp Require Import gmap strings list sorting.

Local Open Scope Z_scope.

(** ** Integers *)

Definition wrap64 (z : Z) : Z := (z + 2 ^ 63) mod 2 ^ 64 - 2 ^ 63.

(** [len(s)] as a Go [int]. *)
Definition len (s : string) : Z := Z.of_nat (String.length s).

(** ** Outcomes

    A Go function either returns or panics; a panic in an HTTP handler is
    recovered by [net/http], which aborts the connection. *)

Inductive outcome (A : Type) : Type :=
| Ok (a : A)
| Panic.
Arguments Ok {A} a.
Arguments Panic {A}.

(** ** Package [strings] and string helpers *)

(** The line feed, as a byte and as a string. *)
Definition LF : ascii := "010"%char.
Definition nl : string := String LF EmptyString.

Fixpoint str_take (n : nat) (s : string) : string :=
  match n, s with
  | S n', String c s' => String c (str_take n' s')
  | _, _ => EmptyString
  end.

Fixpoint str_drop (n : nat) (s : string) : string :=
  match n, s with
  | S n', String _ s' => str_drop n' s'
  | _, _ => s
  end.

Definition HasPrefix (s pre : string) : bool := String.prefix pre s.

Definition TrimPrefix (s pre : string) : string :=
  if HasPrefix s pre then str_drop (String.length pre) s else s.

Definition HasSuffix (s suf : string) : bool :=
  (String.length suf <=? String.length s)%nat
  && String.eqb (str_drop (String.length s - String.length suf) s) suf.

Definition TrimSuffix (s suf : string) : string :=
  if HasSuffix s suf then str_take (String.length s - String.length suf) s else s.

(** [strings.Contains s sub]: [sub] occurs in [s] at some position. *)
Fixpoint Contains (s sub : string) : bool :=
  String.prefix sub s
  || match s with
     | EmptyString => false
     | String _ s' => Contains s' sub
     end.

(** [strings.Split s sep] for a one-byte separator. *)
Fixpoint Split_go (cur : string) (s : string) (sep : ascii) : list string :=
  match s with
  | EmptyString => [String.rev cur]
  | String c s' =>
      if Ascii.eqb c sep then String.rev cur :: Split_go EmptyString s' sep
      else Split_go (String c cur) s' sep
  end.

Definition Split (s : string) (sep : ascii) : list string :=
  Split_go EmptyString s sep.

(** [strings.Join l ""]. *)
Definition str_concat (l : list string) : string :=
  foldr String.append EmptyString l.

(** ** Package [storage] *)

Definition Time := Z.

Definition Before (t u : Time) : bool := t <? u.
Definition After (t u : Time) : bool := u <? t.

(** [Record] is parameterised by what its two reference-typed fields hold:
    [C] for the slice [ResponseChunks] and [E] for the pointer [Error].  In
    the value view they hold their contents, [list string] and
    [option string]; in the memory view of module [Aliasing] they hold a
    slice header and an address.  A struct copy [x := *r] copies the field
    as it is in either view. *)
Record Record_ (C E : Type) : Type := mkRecord {
  ID : string;
  Timestamp : Time;
  Provider : string;
  Method : string;
  URL : string;
  Upstream : string;
  Status : Z;
  DurationMS : Z;
  RequestBody : string;
  ResponseBody : string;
  Stream : bool;
  ResponseChunks : C;
  SizeReqBytes : Z;
  SizeResBytes : Z;
  ModelHint : string;
  Error : E
}.
Arguments mkRecord {C E}.
Arguments ID {C E}.
Arguments Timestamp {C E}.
Arguments Provider {C E}.
Arguments Method {C E}.
Arguments URL {C E}.
Arguments Upstream {C E}.
Arguments Status {C E}.
Arguments DurationMS {C E}.
Arguments RequestBody {C E}.
Arguments ResponseBody {C E}.
Arguments Stream {C E}.
Arguments ResponseChunks {C E}.
Arguments SizeReqBytes {C E}.
Arguments SizeResBytes {C E}.
Arguments ModelHint {C E}.
Arguments Error {C E}.

(** The value view of a record: a nil slice is the empty list. *)
Abbreviation Record := (Record_ (list string) (option string)).

Record Query : Type := mkQuery {
  qProvider : option string;
  qModelLike : option string;
  qURLLike : option string;
  qStatusEq : option Z;
  qFrom : option Time;
  qTo : option Time;
  qTextSearch : option string;
  qOffset : Z;
  qLimit : Z;
  qSort : string
}.

(** ** The Go library *)

(** A [less] function that [sort.Slice] can sort by. *)
Definition strict_weak {A} (less : A → A → bool) : Prop :=
  (∀ a b, less a b = true → less b a = false)
  ∧ (∀ a b c, less b a = false → less c b = false → less c a = false).

Record URLT : Type := mkURL { uScheme : string; uHost : string; uPath : string }.

Class GoLib : Type := {
  (** [strings.ToLower] *)
  strings_ToLower : string → string;
  (** [for k, v := range m]: the entries of the map in an unspecified order *)
  map_range : ∀ {V}, gmap string V → list (string * V);
  map_range_perm : ∀ V (m : gmap string V), map_range m ≡ₚ map_to_list m;
  (** [sort.Slice]: an unstable sort *)
  sort_Slice : ∀ {A}, (A → A → bool) → list A → list A;
  sort_Slice_perm : ∀ A (less : A → A → bool) l, sort_Slice less l ≡ₚ l;
  sort_Slice_sorted : ∀ A (less : A → A → bool) l,
    strict_weak less →
    StronglySorted (λ a b, less b a = false) (sort_Slice less l);
  (** [json.Marshal] of a record: the compact encoding, or an error *)
  json_Marshal : Record → option string;
  json_Marshal_line : ∀ r js, json_Marshal r = Some js → Contains js nl = false;
  (** [json.Unmarshal] into a map, then the string at a key, if any *)
  json_string_field : string → string → option string;
  (** [time.Parse(time.RFC3339, s)] *)
  time_Parse_RFC3339 : string → option Time;
  (** [url.Parse] *)
  url_Parse : string → option URLT
}.

(** ** Package [storage/memory] *)

Section Memory.
Context `{GoLib}.
Context {C E : Type}.

(** The store's table.  Every record in it is a private allocation of the
    store ([Save] stores [&record] for its own copy, [Get] and [List] return
    copies), so the table holds the record structs by value. *)
Record Store : Type := mkStore { records : gmap string (Record_ C E) }.

Definition New : Store := mkStore ∅.

Definition Save (s : Store) (r : Record_ C E) : Store * option string :=
  let record := r in
  (mkStore (<[ID r := record]> (records s)), None).

(** [Get] returns the copy [result], or the error. *)
Definition Get (s : Store) (id : string) : Record_ C E + string :=
  match records s !! id with
  | None => inr ("record not found: " +:+ id)
  | Some record => let result := record in inl result
  end.

Definition Delete (s : Store) (id : string) : Store * option string :=
  match records s !! id with
  | None => (s, Some ("record not found: " +:+ id))
  | Some _ => (mkStore (delete id (records s)), None)
  end.

Definition matchesQuery (record : Record_ C E) (q : Query) : bool :=
  if match qProvider q with
     | Some p => negb (String.eqb (Provider record) p) | None => false end
  then false
  else if match qStatusEq q with
          | Some st => negb (Status record =? st) | None => false end
  then false
  else if match qFrom q with
          | Some from => Before (Timestamp record) from | None => false end
  then false
  else if match qTo q with
          | Some to => After (Timestamp record) to | None => false end
  then false
  else if match qModelLike q with
          | Some m => negb (Contains (strings_ToLower (ModelHint record))
                                     (strings_ToLower m))
          | None => false end
  then false
  else if match qURLLike q with
          | Some u => negb (Contains (strings_ToLower (URL record))
                                     (strings_ToLower u))
          | None => false end
  then false
  else match qTextSearch q with
       | Some t =>
           let searchTerm := strings_ToLower t in
           let searchableText :=
             strings_ToLower (RequestBody record +:+ " " +:+ ResponseBody record
                              +:+ " " +:+ URL record +:+ " " +:+ ModelHint record) in
           if negb (Contains searchableText searchTerm) then false else true
       | None => true
       end.

Definition less_newest (a b : Record_ C E) : bool :=
  After (Timestamp a) (Timestamp b).

Definition less_oldest (a b : Record_ C E) : bool :=
  Before (Timestamp a) (Timestamp b).

Definition sortRecords (l : list (Record_ C E)) (sortBy : string)
  : list (Record_ C E) :=
  if String.eqb sortBy "-ts" then sort_Slice less_newest l
  else sort_Slice less_oldest l.

(** The loop [for _, record := range s.records] of [List]. *)
Definition filterRecords (s : Store) (q : Query) : list (Record_ C E) :=
  filter (λ r, matchesQuery r q = true) (map snd (map_range (records s))).

(** [matches[start:end]] with the bounds checks of a slice expression, and
    the element-wise copy into [result]. *)
Definition slice_copy (l : list (Record_ C E)) (start end_ : Z)
  : outcome (list (Record_ C E)) :=
  if (start <? 0) || (end_ <? start) || (Z.of_nat (length l) <? end_) then Panic
  else Ok (take (Z.to_nat (end_ - start)) (drop (Z.to_nat start) l)).

Definition List (s : Store) (q : Query)
  : outcome (list (Record_ C E) * Z * option string) :=
  let matches := sortRecords (filterRecords s q) (qSort q) in
  let total := Z.of_nat (length matches) in
  let start := qOffset q in
  let start := if total <? start then total else start in
  let end_ := wrap64 (start + qLimit q) in
  let end_ := if (qLimit q <=? 0) || (total <? end_) then total else end_ in
  match slice_copy matches start end_ with
  | Panic => Panic
  | Ok result => Ok (result, total, None)
  end.

End Memory.

Arguments Store : clear implicits.
Arguments mkStore {C E}.
Arguments records {C E}.

(** [ExportNDJSON]: the JSON encoder works on whole records, so this is the
    value view. *)
Section StoreExport.
Context `{GoLib}.

(** The loop [encoder.Encode(record)] over the page, writing to [buf]. *)
Fixpoint encodeRecords (l : list Record) (buf : string) : string + string :=
  match l with
  | [] => inl buf
  | record :: l' =>
      match json_Marshal record with
      | Some js => encodeRecords l' (buf +:+ js +:+ nl)
      | None => inr "failed to encode record"
      end
  end.

(** Returns the content of the reader, or the error. *)
Definition ExportNDJSON (s : Store (list string) (option string)) (q : Query)
  : outcome (string + string) :=
  match List s q with
  | Panic => Panic
  | Ok (_, _, Some err) => Ok (inr err)
  | Ok (records, _, None) => Ok (encodeRecords records "")
  end.

End StoreExport.

(** ** Package [strconv] *)

Definition digit_of (c : ascii) : option Z :=
  let n := Z.of_N (N_of_ascii c) in
  if (48 <=? n) && (n <=? 57) then Some (n - 48) else None.

Fixpoint parse_digits (acc : Z) (s : string) : option Z :=
  match s with
  | EmptyString => Some acc
  | String c s' =>
      match digit_of c with
      | Some d => parse_digits (10 * acc + d) s'
      | None => None
      end
  end.

(** [strconv.Atoi]: an optional sign and decimal digits, within [int]. *)
Definition Atoi (s : string) : option Z :=
  let '(neg, ds) :=
    match s with
    | String "-"%char r => (true, r)
    | String "+"%char r => (false, r)
    | _ => (false, s)
    end in
  match ds with
  | EmptyString => None
  | _ =>
      match parse_digits 0 ds with
      | Some v =>
          let v := if neg : bool then - v else v in
          if (- 2 ^ 63 <=? v) && (v <? 2 ^ 63) then Some v else None
      | None => None
      end
  end.

(** ** Package [internal/api] *)

(** What a handler does to its [http.ResponseWriter], in order. *)
Inductive Effect : Type :=
| Write (data : string)
| Flush
| Sleep (ms : Z).

Record Reply : Type := mkReply {
  status : Z;
  headers : gmap string string;
  effects : list Effect
}.

Fixpoint written (l : list Effect) : list string :=
  match l with
  | [] => []
  | Write d :: l' => d :: written l'
  | _ :: l' => written l'
  end.

(** The body the client receives. *)
Definition body (r : Reply) : string := str_concat (written (effects r)).

(** [http.Error(w, msg, code)], on a writer whose headers are [h]. *)
Definition http_Error (h : gmap string string) (msg : string) (code : Z) : Reply :=
  mkReply code
    (<["X-Content-Type-Options" := "nosniff"]>
       (<["Content-Type" := "text/plain; charset=utf-8"]>
          (delete "Content-Length" h)))
    [Write (msg +:+ nl)].

Definition StatusOK : Z := 200.
Definition StatusBadRequest : Z := 400.
Definition StatusNotFound : Z := 404.
Definition StatusMethodNotAllowed : Z := 405.
Definition StatusInternalServerError : Z := 500.
Definition StatusBadGateway : Z := 502.

Section Api.
Context `{GoLib}.

(** [params] is [r.URL.Query().Get]: the first value of a key, or [""].
    The text that [%v] adds for the library's error is left out of the
    messages. *)
Definition parseQuery (params : string → string) : Query + string :=
  let query := mkQuery None None None None None None None 0 50 "-ts" in
  let provider := params "provider" in
  let query := if String.eqb provider "" then query else
    mkQuery (Some provider) (qModelLike query) (qURLLike query) (qStatusEq query)
      (qFrom query) (qTo query) (qTextSearch query) (qOffset query) (qLimit query)
      (qSort query) in
  let model := params "modelLike" in
  let query := if String.eqb model "" then query else
    mkQuery (qProvider query) (Some model) (qURLLike query) (qStatusEq query)
      (qFrom query) (qTo query) (qTextSearch query) (qOffset query) (qLimit query)
      (qSort query) in
  let urlLike := params "urlLike" in
  let query := if String.eqb urlLike "" then query else
    mkQuery (qProvider query) (qModelLike query) (Some urlLike) (qStatusEq query)
      (qFrom query) (qTo query) (qTextSearch query) (qOffset query) (qLimit query)
      (qSort query) in
  let statusStr := params "status" in
  match (if String.eqb statusStr "" then Some (qStatusEq query)
         else option_map Some (Atoi statusStr)) with
  | None => inr "invalid status parameter"
  | Some st =>
  let q := params "q" in
  let text := if String.eqb q "" then qTextSearch query else Some q in
  let fromStr := params "from" in
  match (if String.eqb fromStr "" then Some (qFrom query)
         else option_map Some (time_Parse_RFC3339 fromStr)) with
  | None => inr "invalid from parameter"
  | Some from =>
  let toStr := params "to" in
  match (if String.eqb toStr "" then Some (qTo query)
         else option_map Some (time_Parse_RFC3339 toStr)) with
  | None => inr "invalid to parameter"
  | Some to =>
  let offsetStr := params "offset" in
  match (if String.eqb offsetStr "" then Some (qOffset query)
         else Atoi offsetStr) with
  | None => inr "invalid offset parameter"
  | Some offset =>
  let limitStr := params "limit" in
  match (if String.eqb limitStr "" then Some (qLimit query)
         else option_map (λ limit, if 0 <? limit then limit else qLimit query)
                (Atoi limitStr)) with
  | None => inr "invalid limit parameter"
  | Some limit =>
  let sort := params "sort" in
  if String.eqb sort "" then
    inl (mkQuery (qProvider query) (qModelLike query) (qURLLike query) st from to
           text offset limit (qSort query))
  else if String.eqb sort "ts" || String.eqb sort "-ts" then
    inl (mkQuery (qProvider query) (qModelLike query) (qURLLike query) st from to
           text offset limit sort)
  else inr "invalid sort parameter: must be 'ts' or '-ts'"
  end end end end end.

Definition set_paging (q : Query) (offset limit : Z) : Query :=
  mkQuery (qProvider q) (qModelLike q) (qURLLike q) (qStatusEq q) (qFrom q)
    (qTo q) (qTextSearch q) offset limit (qSort q).


(** The loop of [handleRequestChunks] over [record.ResponseChunks], from
    index [i]; [n] is [len(record.ResponseChunks)]. *)
Fixpoint replayChunks (chunks : list string) (i n : Z) : list Effect :=
  match chunks with
  | [] => []
  | chunk :: rest =>
      [Write ("data: " +:+ chunk +:+ nl +:+ nl); Flush]
      ++ (if i <? n - 1 then [Sleep 50] else [])
      ++ replayChunks rest (i + 1) n
  end.

(** [handleRequestChunks]; [isFlusher] tells whether the writer implements
    [http.Flusher], as the writers of [net/http]'s server do. *)
Definition handleRequestChunks (s : Store (list string) (option string))
    (isFlusher : bool) (id : string) : Reply :=
  match Get s id with
  | inr err =>
      if Contains err "not found" then
        http_Error ∅ "Record not found" StatusNotFound
      else
        http_Error ∅ ("Failed to get record: " +:+ err) StatusInternalServerError
  | inl record =>
      if negb (Stream record) || (Z.of_nat (length (ResponseChunks record)) =? 0) then
        http_Error ∅ "No chunks available for this record" StatusNotFound
      else
        let h := <["Connection" := "keep-alive"]>
                   (<["Cache-Control" := "no-cache"]>
                      (<["Content-Type" := "text/event-stream"]> ∅)) in
        if negb isFlusher then
          http_Error h "Streaming not supported" StatusInternalServerError
        else
          mkReply StatusOK h
            (replayChunks (ResponseChunks record) 0
               (Z.of_nat (length (ResponseChunks record))))
  end.

End Api.

(** ** Package [config] *)

Record RouteConfig : Type := mkRoute { rMount : string; rUpstream : string }.

Record Config : Type := mkConfig {
  MaxBodyMB : Z;
  WorkerPoolSize : Z;
  Routes : gmap string RouteConfig
}.

Definition MaxBodyBytes (c : Config) : Z :=
  wrap64 (wrap64 (MaxBodyMB c * 1024) * 1024).

Section ConfigRoutes.
Context `{GoLib}.

(** The first route in iteration order whose mount matches, if any. *)
Definition GetRouteByMount (c : Config) (mount : string)
  : option (string * RouteConfig) :=
  let mount := TrimSuffix mount "/" in
  List.find (λ nr, String.eqb (TrimSuffix (rMount (snd nr)) "/") mount)
    (map_range (Routes c)).

End ConfigRoutes.

(** ** Package [io] *)

(** An [io.Reader] over a body: the bytes it delivers, then the error that
    ends it ([None] is [io.EOF]).  The error arrives on a call of its own,
    after the last bytes. *)
Record Reader : Type := mkReader { rd_data : string; rd_err : option string }.

(** [io.LimitReader(r, n)]: after [n] bytes it reports [io.EOF] without
    reading [r] again. *)
Definition io_LimitReader (r : Reader) (n : Z) : Reader :=
  if n <=? 0 then mkReader "" None
  else if n <=? len (rd_data r) then mkReader (str_take (Z.to_nat n) (rd_data r)) None
  else r.

Definition io_ReadAll (r : Reader) : string + string :=
  match rd_err r with
  | None => inl (rd_data r)
  | Some err => inr err
  end.

(** [bytes.NewReader(b)] *)
Definition bytes_NewReader (b : string) : Reader := mkReader b None.

(** ** Package [internal/proxy] *)

Definition with_request (r : Record) (body : string) (size : Z) : Record :=
  mkRecord (ID r) (Timestamp r) (Provider r) (Method r) (URL r) (Upstream r)
    (Status r) (DurationMS r) body (ResponseBody r) (Stream r)
    (ResponseChunks r) size (SizeResBytes r) (ModelHint r) (Error r).

Definition with_Status (r : Record) (st : Z) : Record :=
  mkRecord (ID r) (Timestamp r) (Provider r) (Method r) (URL r) (Upstream r)
    st (DurationMS r) (RequestBody r) (ResponseBody r) (Stream r)
    (ResponseChunks r) (SizeReqBytes r) (SizeResBytes r) (ModelHint r) (Error r).

Definition with_Stream (r : Record) (b : bool) : Record :=
  mkRecord (ID r) (Timestamp r) (Provider r) (Method r) (URL r) (Upstream r)
    (Status r) (DurationMS r) (RequestBody r) (ResponseBody r) b
    (ResponseChunks r) (SizeReqBytes r) (SizeResBytes r) (ModelHint r) (Error r).

Definition with_response (r : Record) (body : string) (size : Z)
    (chunks : list string) : Record :=
  mkRecord (ID r) (Timestamp r) (Provider r) (Method r) (URL r) (Upstream r)
    (Status r) (DurationMS r) (RequestBody r) body (Stream r)
    chunks (SizeReqBytes r) size (ModelHint r) (Error r).

Definition with_DurationMS (r : Record) (d : Z) : Record :=
  mkRecord (ID r) (Timestamp r) (Provider r) (Method r) (URL r) (Upstream r)
    (Status r) d (RequestBody r) (ResponseBody r) (Stream r)
    (ResponseChunks r) (SizeReqBytes r) (SizeResBytes r) (ModelHint r) (Error r).

Definition with_ModelHint (r : Record) (m : string) : Record :=
  mkRecord (ID r) (Timestamp r) (Provider r) (Method r) (URL r) (Upstream r)
    (Status r) (DurationMS r) (RequestBody r) (ResponseBody r) (Stream r)
    (ResponseChunks r) (SizeReqBytes r) (SizeResBytes r) m (Error r).

(** The inbound request: [r.Method], [r.URL.Path], [r.URL.String()] and
    [r.Body]. *)
Record Request : Type := mkRequest {
  rqMethod : string;
  rqPath : string;
  rqURL : string;
  rqBody : option Reader
}.

(** [captureRequestBody]: the request with its body replaced and the record
    with the captured bytes, or the error. *)
Definition captureRequestBody (cfg : Config) (r : Request) (record : Record)
  : Request * Record + string :=
  match rqBody r with
  | None => inl (r, record)
  | Some rbody =>
      let maxBytes := MaxBodyBytes cfg in
      match io_ReadAll (io_LimitReader rbody maxBytes) with
      | inr err => inr ("failed to read request body: " +:+ err)
      | inl body =>
          let record := with_request record body (len body) in
          inl (mkRequest (rqMethod r) (rqPath r) (rqURL r)
                 (Some (bytes_NewReader body)), record)
      end
  end.

(** *** The response body and its wrappers *)

(** The state that [captureResponseBody] sets up: the locals [buf] and
    [chunks] that the closures share, the [closed] flag of [bodyCapture],
    and the record that [onClose] writes to.  [cap_onClose_runs] is a ghost
    field: it counts the calls of [onClose]. *)
Record Capture : Type := mkCapture {
  cap_stream : bool;
  cap_max : Z;
  cap_buf : string;
  cap_chunks : list string;
  cap_closed : bool;
  cap_onClose_runs : nat;
  cap_record : Record
}.

(** [streamCapture.Read], for an underlying read that returned [data]. *)
Definition streamCapture_Read (c : Capture) (data : string) : Capture :=
  if 0 <? len data then
    if len (cap_buf c) <? cap_max c then
      mkCapture (cap_stream c) (cap_max c) (cap_buf c +:+ data)
        (cap_chunks c ++ [data]) (cap_closed c) (cap_onClose_runs c) (cap_record c)
    else c
  else c.

(** [io.TeeReader(resp.Body, &buf).Read]: [bytes.Buffer.Write] never fails. *)
Definition teeReader_Read (c : Capture) (data : string) : Capture :=
  if 0 <? len data then
    mkCapture (cap_stream c) (cap_max c) (cap_buf c +:+ data)
      (cap_chunks c) (cap_closed c) (cap_onClose_runs c) (cap_record c)
  else c.

(** [bodyCapture.Read]: the read goes to the wrapped reader, and its result
    [(data, err)] is returned as it is. *)
Definition bodyCapture_Read (c : Capture) (data : string) (err : option string)
  : Capture * (string * option string) :=
  (if cap_stream c then streamCapture_Read c data else teeReader_Read c data,
   (data, err)).

(** The closure [onClose]. *)
Definition onClose (c : Capture) : Record :=
  let record := cap_record c in
  with_response record (cap_buf c) (len (cap_buf c))
    (if 0 <? Z.of_nat (length (cap_chunks c)) then cap_chunks c
     else ResponseChunks record).

(** [bodyCapture.Close] *)
Definition bodyCapture_Close (c : Capture) : Capture :=
  if negb (cap_closed c) then
    mkCapture (cap_stream c) (cap_max c) (cap_buf c) (cap_chunks c) true
      (S (cap_onClose_runs c)) (onClose c)
  else c.

(** A call on the installed [resp.Body]: a [Read], with what the upstream
    body returned to it, or a [Close]. *)
Inductive BodyCall : Type :=
| CallRead (data : string) (err : option string)
| CallClose.

Definition body_step (c : Capture) (call : BodyCall) : Capture :=
  match call with
  | CallRead data err => fst (bodyCapture_Read c data err)
  | CallClose => bodyCapture_Close c
  end.

Definition body_run (calls : list BodyCall) (c : Capture) : Capture :=
  foldl body_step c calls.

(** The upstream response, as [ModifyResponse] sees it. *)
Record UpBody : Type := mkUpBody { up_reads : list string; up_err : option string }.

Record UpResponse : Type := mkUpResponse {
  upStatusCode : Z;
  upContentType : string;
  upTransferEncoding : string;
  upBody : option UpBody
}.

Definition isStreamResponse (resp : UpResponse) : bool :=
  Contains (upContentType resp) "text/event-stream"
  || Contains (upContentType resp) "application/x-ndjson"
  || String.eqb (upTransferEncoding resp) "chunked".

(** [captureResponseBody]: the record, the wrapper installed as [resp.Body]
    (if there is a body), and the returned error, which is always nil. *)
Definition captureResponseBody (cfg : Config) (resp : UpResponse) (record : Record)
  : Record * option Capture * option string :=
  match upBody resp with
  | None => (record, None, None)
  | Some _ =>
      let isStream := isStreamResponse resp in
      let record := with_Stream record isStream in
      (record,
       Some (mkCapture isStream (MaxBodyBytes cfg) "" [] false 0 record),
       None)
  end.

(** What each [Read] of a run returned to the caller. *)
Fixpoint body_outputs (calls : list BodyCall) (c : Capture)
  : list (string * option string) :=
  match calls with
  | [] => []
  | CallRead data err :: rest =>
      let '(c', out) := bodyCapture_Read c data err in
      out :: body_outputs rest c'
  | CallClose :: rest => body_outputs rest (bodyCapture_Close c)
  end.

(** *** [ServeHTTP] *)

Definition extractMount (path : string) : string :=
  match Split (TrimPrefix path "/") "/"%char with
  | part :: _ => "/" +:+ part
  | [] => "/"
  end.

(** The request as the upstream receives it; [fwBody] is what it reads from
    the request's body. *)
Record Forwarded : Type := mkForwarded {
  fwMethod : string;
  fwScheme : string;
  fwHost : string;
  fwPath : string;
  fwBody : option string
}.

Inductive RoundTrip : Type :=
| TransportError (err : string)
| Responded (resp : UpResponse).

(** What the handler takes from its environment: the fresh id, the clock,
    the upstream, and whether the channel [g.workers] has room. *)
Record World : Type := mkWorld {
  uuid_New : string;
  time_Now : Time;
  time_Since_ms : Z;
  roundTrip : Forwarded → RoundTrip;
  workers_has_room : bool
}.

(** What the handler did: the response the client sees ([sv_aborted] when
    the handler panicked with [http.ErrAbortHandler] and the connection was
    cut), the log, the forwarded request and the record sent to the
    storage workers. *)
Record Served : Type := mkServed {
  sv_status : Z;
  sv_body : string;
  sv_aborted : bool;
  sv_logs : list string;
  sv_forwarded : option Forwarded;
  sv_enqueued : option Record
}.

(** The calls of [ReverseProxy.copyResponse] on the response body: it reads
    until a read reports [io.EOF] or an error, then closes the body. *)
Definition proxy_calls (b : UpBody) : list BodyCall :=
  map (λ d, CallRead d None) (up_reads b)
  ++ [CallRead "" (Some (default "EOF" (up_err b))); CallClose].

Section Gateway.
Context `{GoLib}.

Definition extractModelHint (record : Record) : Record :=
  if String.eqb (RequestBody record) "" then record
  else match json_string_field (RequestBody record) "model" with
       | Some model => with_ModelHint record model
       | None => record
       end.

(** The end of [ServeHTTP], after [proxy.ServeHTTP] has returned. *)
Definition finishServe (w : World) (st : Z) (bdy : string) (logs : list string)
    (fw : Forwarded) (record : Record) : Served :=
  let record := with_DurationMS record (time_Since_ms w) in
  let record := extractModelHint record in
  if workers_has_room w then
    mkServed st bdy false logs (Some fw) (Some record)
  else
    mkServed st bdy false
      (logs ++ ["Storage worker queue full, dropping record " +:+ ID record])
      (Some fw) None.

(** [ServeHTTP].  [httputil.ReverseProxy] is the library's: it sends the
    request rewritten by [Director] with the bytes of [r.Body]; when the
    round trip fails it answers 502 without calling [ModifyResponse], and
    also when [ModifyResponse] returns an error; otherwise it copies the
    status and the body to the client and closes the body; when a read of
    the body fails it closes the body and panics with
    [http.ErrAbortHandler], so that the rest of the handler does not run.

    This is the path of the library on which the response is copied, the
    one that every final status from 200 to 999 takes.  Two answers of an
    upstream take other paths, which the definition does not follow.  For
    101 Switching Protocols the library wants an [io.ReadWriteCloser] as
    the body of the response: finding [bodyCapture], which has [Read] and
    [Close] only, it answers 502 and neither reads nor closes the body, so
    that the record is enqueued with status 101 and an empty response
    body.  A status below 100 is refused by [WriteHeader] with a panic.
    Where a theorem below says which status and body the client receives
    for a response of the upstream, it says so for a status from 200 to
    999. *)
Definition ServeHTTP (cfg : Config) (w : World) (r : Request) : Served :=
  let mount := extractMount (rqPath r) in
  match GetRouteByMount cfg mount with
  | None => mkServed StatusNotFound ("404 page not found" +:+ nl) false [] None None
  | Some (providerName, route) =>
  match url_Parse (rUpstream route) with
  | None =>
      mkServed StatusInternalServerError ("Invalid upstream URL" +:+ nl) false []
        None None
  | Some upstream =>
  let record :=
    mkRecord (uuid_New w) (time_Now w) providerName (rqMethod r) (rqURL r)
      (rUpstream route) 0 0 "" "" false [] 0 0 "" None in
  match captureRequestBody cfg r record with
  | inr err =>
      mkServed StatusInternalServerError ("Failed to process request" +:+ nl) false
        ["Failed to capture request body: " +:+ err] None None
  | inl (r, record) =>
  let path := uPath upstream +:+ TrimPrefix (rqPath r) (rMount route) in
  let path := if String.eqb path "" then "/" else path in
  let fw := mkForwarded (rqMethod r) (uScheme upstream) (uHost upstream) path
              (option_map rd_data (rqBody r)) in
  match roundTrip w fw with
  | TransportError err =>
      finishServe w StatusBadGateway "" ["http: proxy error: " +:+ err] fw record
  | Responded resp =>
  let record := with_Status record (upStatusCode resp) in
  match captureResponseBody cfg resp record with
  | (_, _, Some err) =>
      finishServe w StatusBadGateway "" ["http: proxy error: " +:+ err] fw record
  | (record, None, None) => finishServe w (upStatusCode resp) "" [] fw record
  | (record, Some c, None) =>
  match upBody resp with
  | None => finishServe w (upStatusCode resp) "" [] fw record
  | Some b =>
      let c' := body_run (proxy_calls b) c in
      let bdy := str_concat (map fst (body_outputs (proxy_calls b) c)) in
      match up_err b with
      | Some err =>
          mkServed (upStatusCode resp) bdy true
            ["httputil: ReverseProxy read error during body copy: " +:+ err]
            (Some fw) None
      | None => finishServe w (upStatusCode resp) bdy [] fw (cap_record c')
      end
  end end end end end end.

End Gateway.

(** ** The memory view of a record

    A slice is a header (array, offset, length, capacity) over a backing
    array on the heap, and [*string] is an address; a struct copy copies
    the header and the address, not what they refer to. *)

Module Aliasing.

Record Slice : Type := mkSlice {
  sl_array : nat;
  sl_off : nat;
  sl_len : nat;
  sl_cap : nat
}.

Record Heap : Type := mkHeap {
  arrays : gmap nat (list string);
  cells : gmap nat string
}.

Abbreviation MRecord := (Record_ Slice (option nat)).

(** The elements of the slice [sl], as the heap has them. *)
Definition slice_load (h : Heap) (sl : Slice) : list string :=
  take (sl_len sl) (drop (sl_off sl) (default [] (arrays h !! sl_array sl))).

(** [sl[i] = v] *)
Definition slice_store (h : Heap) (sl : Slice) (i : Z) (v : string) : outcome Heap :=
  if (i <? 0) || (Z.of_nat (sl_len sl) <=? i) then Panic
  else Ok (mkHeap (alter (λ a, <[(sl_off sl + Z.to_nat i)%nat := v]> a)
                     (sl_array sl) (arrays h))
             (cells h)).

(** [*p = v] *)
Definition cell_store (h : Heap) (p : nat) (v : string) : Heap :=
  mkHeap (arrays h) (<[p := v]> (cells h)).

(** What a reader of the record [r] sees on the heap [h]. *)
Definition view (h : Heap) (r : MRecord) : Record :=
  mkRecord (ID r) (Timestamp r) (Provider r) (Method r) (URL r) (Upstream r)
    (Status r) (DurationMS r) (RequestBody r) (ResponseBody r) (Stream r)
    (slice_load h (ResponseChunks r)) (SizeReqBytes r) (SizeResBytes r)
    (ModelHint r) (Error r ≫= λ p, cells h !! p).

End Aliasing.

(** ** A reference instance of the library

    Used to run the model on examples: ASCII lower-casing, the canonical
    order of the map, a merge sort, and a one-line stand-in for the JSON
    encoder. *)

Definition ascii_lower (c : ascii) : ascii :=
  let n := N_of_ascii c in
  if ((65 <=? n) && (n <=? 90))%N then ascii_of_N (n + 32) else c.

Fixpoint ref_ToLower (s : string) : string :=
  match s with
  | EmptyString => EmptyString
  | String c s' => String (ascii_lower c) (ref_ToLower s')
  end.

(** [a] may come before [b]. *)
Definition not_after {A} (less : A → A → bool) : relation A :=
  λ a b, less b a = false.

#[global] Instance not_after_dec {A} (less : A → A → bool) :
  RelDecision (not_after less) := λ a b, decide (less b a = false).

Definition ref_sort {A} (less : A → A → bool) (l : list A) : list A :=
  merge_sort (not_after less) l.

Definition ref_json (r : Record) : option string :=
  Some ("{stream:" +:+ (if Stream r then "true" else "false") +:+ "}").

(** ** A request and a response for the examples *)

Fixpoint str_rep (c : ascii) (n : nat) : string :=
  match n with
  | O => EmptyString
  | S n' => String c (str_rep c n')
  end.

(** A body of one byte more than one mebibyte. *)
Definition big_body : string := str_rep "a"%char (Z.to_nat 1048577).

Definition cfg_1MB : Config :=
  mkConfig 1 10 {[ "openai" := mkRoute "/openai" "https://api.openai.com/v1" ]}.

Definition json_response (reads : list string) : UpResponse :=
  mkUpResponse 200 "application/json" "" (Some (mkUpBody reads None)).

Definition sse_response (reads : list string) : UpResponse :=
  mkUpResponse 200 "text/event-stream" "" (Some (mkUpBody reads None)).

Definition world_of (resp : UpResponse) : World :=
  mkWorld "id-1" 1000 12 (λ _, Responded resp) true.

Definition post_chat (b : Reader) : Request :=
  mkRequest "POST" "/openai/chat/completions" "/openai/chat/completions" (Some b).

(** ** Traces of calls on the response body *)

Definition is_close (call : BodyCall) : bool :=
  match call with CallClose => true | CallRead _ _ => false end.

(** The calls made before the first [Close]. *)
Fixpoint before_close (calls : list BodyCall) : list BodyCall :=
  match calls with
  | [] => []
  | CallClose :: _ => []
  | call :: rest => call :: before_close rest
  end.

Definition closed_in (calls : list BodyCall) : bool := existsb is_close calls.

(** The byte groups that the reads of a trace returned, in order. *)
Fixpoint reads_of (calls : list BodyCall) : list string :=
  match calls with
  | [] => []
  | CallRead data _ :: rest => data :: reads_of rest
  | CallClose :: rest => reads_of rest
  end.


(** A response body of 1025 reads of one kibibyte each. *)
Definition kib_reads : list string :=
  replicate (Z.to_nat 1025) (str_rep "a"%char (Z.to_nat 1024)).

(** ** What the claims about the store speak of *)

(** The number of records of the store that satisfy the filter of [q]. *)
Definition count_matching `{GoLib} {C E} (s : Store C E) (q : Query) : Z :=
  Z.of_nat (length (filter (λ r, matchesQuery r q = true)
                      (map snd (map_to_list (records s))))).

(** Newest first. *)
Definition newest_first {C E} (l : list (Record_ C E)) : Prop :=
  StronglySorted (λ a b, Timestamp b <= Timestamp a) l.

(** The query parameters of a request without a query string, and of
    [?offset=-1]. *)
Definition no_params : string → string := λ _, "".

Definition offset_minus_one : string → string :=
  λ k, if String.eqb k "offset" then "-1" else "".

(** The two records of the scenario: [A], a plain exchange at time 100, and
    [B], a stream at time 200 with two chunks. *)
Definition recA : Record :=
  mkRecord "A" 100 "openai" "POST" "/openai/chat/completions"
    "https://api.openai.com/v1" 200 12 "{}" "{}" false [] 2 2 "" None.

Definition recB : Record :=
  mkRecord "B" 200 "ollama" "POST" "/ollama/api/generate"
    "http://localhost:11434" 500 34 "{}" "data: 1data: 2" true
    ["data: 1"; "data: 2"] 2 14 "" None.

Definition example_store : Store (list string) (option string) :=
  fst (Save (fst (Save New recA)) recB).



(** The effects of a reply without the pauses. *)
Fixpoint without_sleeps (l : list Effect) : list Effect :=
  match l with
  | [] => []
  | Sleep _ :: l' => without_sleeps l'
  | e :: l' => e :: without_sleeps l'
  end.

(** The record [B] in memory: its two chunks are the array at address 0. *)
Definition heapB : Aliasing.Heap :=
  Aliasing.mkHeap {[ 0%nat := ["data: 1"; "data: 2"] ]} ∅.

Definition memB : Aliasing.MRecord :=
  mkRecord "B" 200 "ollama" "POST" "/ollama/api/generate"
    "http://localhost:11434" 500 34 "{}" "data: 1data: 2" true
    (Aliasing.mkSlice 0 0 2 2) 2 14 "" None.

(** ** The rest of package [internal/api] *)

Definition StatusNoContent : Z := 204.

Section ApiById.
Context `{GoLib}.

(** [handleGetRequest]: [Encode] writes the record's JSON and a line feed,
    or nothing when the encoder fails. *)
Definition handleGetRequest (s : Store (list string) (option string))
    (id : string) : Reply :=
  match Get s id with
  | inr err =>
      if Contains err "not found" then
        http_Error ∅ "Record not found" StatusNotFound
      else
        http_Error ∅ ("Failed to get record: " +:+ err) StatusInternalServerError
  | inl record =>
      mkReply StatusOK (<["Content-Type" := "application/json"]> ∅)
        (match json_Marshal record with
         | Some js => [Write (js +:+ nl)]
         | None => []
         end)
  end.

(** [handleDeleteRequest]: the store after the call, and the reply. *)
Definition handleDeleteRequest (s : Store (list string) (option string))
    (id : string) : Store (list string) (option string) * Reply :=
  match Delete s id with
  | (s', Some err) =>
      (s',
       if Contains err "not found" then
         http_Error ∅ "Record not found" StatusNotFound
       else
         http_Error ∅ ("Failed to delete record: " +:+ err)
           StatusInternalServerError)
  | (s', None) => (s', mkReply StatusNoContent ∅ [])
  end.

(** [handleRequestByID], for a request with method [method] and path
    [path]. *)
Definition handleRequestByID (s : Store (list string) (option string))
    (isFlusher : bool) (method path : string)
  : Store (list string) (option string) * Reply :=
  let path := TrimPrefix path "/api/requests/" in
  let parts := Split path "/"%char in
  match parts with
  | [] => (s, http_Error ∅ "Missing request ID" StatusBadRequest)
  | id :: rest =>
      if String.eqb id "" then
        (s, http_Error ∅ "Missing request ID" StatusBadRequest)
      else if String.eqb method "GET" then
        match rest with
        | part :: _ =>
            if String.eqb part "chunks" then (s, handleRequestChunks s isFlusher id)
            else (s, handleGetRequest s id)
        | [] => (s, handleGetRequest s id)
        end
      else if String.eqb method "DELETE" then handleDeleteRequest s id
      else (s, http_Error ∅ "Method not allowed" StatusMethodNotAllowed)
  end.

(** What [handleRequests] answers: an error reply, or the map that it
    hands to the JSON encoder (with content type [application/json]). *)
Inductive ListReply : Type :=
| ListError (r : Reply)
| ListPage (records : list Record) (total offset limit : Z).

Definition handleRequests (s : Store (list string) (option string))
    (method : string) (params : string → string) : outcome ListReply :=
  if negb (String.eqb method "GET") then
    Ok (ListError (http_Error ∅ "Method not allowed" StatusMethodNotAllowed))
  else
    match parseQuery params with
    | inr err =>
        Ok (ListError
              (http_Error ∅ ("Invalid query parameters: " +:+ err) StatusBadRequest))
    | inl query =>
        match List s query with
        | Panic => Panic
        | Ok (_, _, Some err) =>
            Ok (ListError
                  (http_Error ∅ ("Failed to list records: " +:+ err)
                     StatusInternalServerError))
        | Ok (records, total, None) =>
            Ok (ListPage records total (qOffset query) (qLimit query))
        end
    end.

End ApiById.

(** ** The storage worker *)

(** [storageWorker], for the records that one worker receives from the
    channel, in order: the store after them and the log.  The context's
    deadline plays no part, as the memory store does not look at it. *)
Fixpoint storageWorker (s : Store (list string) (option string))
    (received : list Record) : Store (list string) (option string) * list string :=
  match received with
  | [] => (s, [])
  | record :: rest =>
      match Save s record with
      | (s', Some err) =>
          let '(s'', logs) := storageWorker s' rest in
          (s'', ("Failed to save record " +:+ ID record +:+ ": " +:+ err) :: logs)
      | (s', None) => storageWorker s' rest
      end
  end.

(** ** What the further properties speak of *)

(** Oldest first. *)
Definition oldest_first {C E} (l : list (Record_ C E)) : Prop :=
  StronglySorted (λ a b, Timestamp a <= Timestamp b) l.

(** The number of occurrences of a byte in a string. *)
Fixpoint count_byte (c : ascii) (s : string) : nat :=
  match s with
  | EmptyString => 0%nat
  | String x s' => ((if Ascii.eqb x c then 1 else 0) + count_byte c s')%nat
  end.

(** The bytes of [s] before the first [sep], and what follows that [sep],
    if there is one. *)
Fixpoint first_segment (s : string) (sep : ascii) : string :=
  match s with
  | EmptyString => EmptyString
  | String c s' => if Ascii.eqb c sep then EmptyString else String c (first_segment s' sep)
  end.

Fixpoint after_segment (s : string) (sep : ascii) : option string :=
  match s with
  | EmptyString => None
  | String c s' => if Ascii.eqb c sep then Some s' else after_segment s' sep
  end.

(** The parameters of a query string, each as [parseQuery] reads it:
    [None] when the parameter is malformed. *)
Definition status_param (params : string → string) : option (option Z) :=
  if String.eqb (params "status") "" then Some None
  else option_map Some (Atoi (params "status")).

Definition time_param `{GoLib} (params : string → string) (key : string)
  : option (option Time) :=
  if String.eqb (params key) "" then Some None
  else option_map Some (time_Parse_RFC3339 (params key)).

Definition offset_param (params : string → string) : option Z :=
  if String.eqb (params "offset") "" then Some 0 else Atoi (params "offset").

Definition limit_param (params : string → string) : option Z :=
  if String.eqb (params "limit") "" then Some 50
  else option_map (λ limit, if 0 <? limit then limit else 50) (Atoi (params "limit")).

Definition sort_param (params : string → string) : option string :=
  if String.eqb (params "sort") "" then Some "-ts"
  else if String.eqb (params "sort") "ts" || String.eqb (params "sort") "-ts"
       then Some (params "sort") else None.

Definition text_param (params : string → string) (key : string) : option string :=
  if String.eqb (params key) "" then None else Some (params key).

(** The fields of a record that the request side fills. *)
Definition request_part (r : Record)
  : string * Time * string * string * string * string * string * Z * option string :=
  (ID r, Timestamp r, Provider r, Method r, URL r, Upstream r, RequestBody r,
   SizeReqBytes r, Error r).

(** The record before the response is looked at: what [ServeHTTP] creates
    and [captureRequestBody] fills. *)
Definition request_record (cfg : Config) (w : World) (r : Request)
    (name : string) (route : RouteConfig) : Record :=
  let body := match rqBody r with
              | Some rd => str_take (Z.to_nat (MaxBodyBytes cfg)) (rd_data rd)
              | None => ""
              end in
  mkRecord (uuid_New w) (time_Now w) name (rqMethod r) (rqURL r) (rUpstream route)
    0 0 body "" false [] (len body) 0 "" None.

(** The reads of a body that returned at least one byte. *)
Abbreviation nonempty_reads l := (filter (λ d : string, 0 < len d) l).

(** ** The event stream format

    What the client of a [text/event-stream] response makes of the bytes
    it receives: the rules of the HTML standard for server-sent events
    (section "Interpreting an event stream"), which the [EventSource] of
    the repository's UI applies in the browser.  The stream is cut into
    lines; a line [name: value] sets a field, [data] adding the value and
    a line feed to the data buffer and [event] setting the event type; a
    line that starts with a colon is a comment; an empty line dispatches
    the event that the buffers hold, if the data buffer is not empty.
    The fields [id] and [retry] bear on reconnection only and are passed
    over, as every unknown field is.  Strings are byte sequences here as
    everywhere else: the decoding of UTF-8 is left out. *)

Definition CR : ascii := "013"%char.

(** The byte order mark, as UTF-8. *)
Definition bom : string :=
  String "239"%char (String "187"%char (String "191"%char EmptyString)).

(** The lines of a stream: a line ends at a line feed, at a carriage
    return, or at a carriage return followed by a line feed.  The bytes
    after the last line end are not a line. *)
Fixpoint sse_lines (s : string) : list string :=
  match s with
  | EmptyString => []
  | String c s' =>
      if Ascii.eqb c LF then EmptyString :: sse_lines s'
      else if Ascii.eqb c CR then
        EmptyString :: match s' with
                       | String c' s'' => if Ascii.eqb c' LF then sse_lines s''
                                          else sse_lines s'
                       | EmptyString => []
                       end
      else match sse_lines s' with
           | line :: rest => String c line :: rest
           | [] => []
           end
  end.

(** An event as the client's [onmessage] or a listener of its type sees
    it. *)
Record SseEvent : Type := mkSseEvent { ev_type : string; ev_data : string }.

(** The data buffer and the event type buffer. *)
Record SseBuffers : Type := mkSseBuffers { buf_data : string; buf_type : string }.

Definition sse_field (b : SseBuffers) (name value : string) : SseBuffers :=
  if String.eqb name "event" then mkSseBuffers (buf_data b) value
  else if String.eqb name "data" then
    mkSseBuffers (buf_data b +:+ value +:+ nl) (buf_type b)
  else b.

(** The event of an empty line: none when the data buffer is empty;
    otherwise the data without its last line feed, with the type
    [message] unless an [event] field gave another. *)
Definition sse_dispatch (b : SseBuffers) : option SseEvent :=
  if String.eqb (buf_data b) "" then None
  else Some (mkSseEvent (if String.eqb (buf_type b) "" then "message" else buf_type b)
               (TrimSuffix (buf_data b) nl)).

(** The events of a sequence of lines.  One space after the colon of a
    field is not part of the value; a line without a colon is a field with
    an empty value; what the buffers hold at the end of the stream is
    discarded. *)
Fixpoint sse_interpret (lines : list string) (b : SseBuffers) : list SseEvent :=
  match lines with
  | [] => []
  | line :: rest =>
      match line with
      | EmptyString =>
          match sse_dispatch b with
          | Some e => e :: sse_interpret rest (mkSseBuffers "" "")
          | None => sse_interpret rest (mkSseBuffers "" "")
          end
      | String c _ =>
          if Ascii.eqb c ":" then sse_interpret rest b
          else match after_segment line ":" with
               | Some value =>
                   sse_interpret rest
                     (sse_field b (first_segment line ":") (TrimPrefix value " "))
               | None => sse_interpret rest (sse_field b line "")
               end
      end
  end.

(** The events that a client reads from the body of a response; one byte
    order mark at the start is passed over. *)
Definition sse_events (stream : string) : list SseEvent :=
  sse_interpret (sse_lines (TrimPrefix stream bom)) (mkSseBuffers "" "").

(** A string without a line end in it. *)
Fixpoint one_line (s : string) : bool :=
  match s with
  | EmptyString => true
  | String c s' => negb (Ascii.eqb c LF) && negb (Ascii.eqb c CR) && one_line s'
  end.

(** Two events of an upstream's event stream, as one read of the response
    body returns them when they arrive together. *)
Definition two_events : string :=
  "data: 1" +:+ nl +:+ nl +:+ "data: 2" +:+ nl +:+ nl.

(** * Properties *)

(** ** Strings *)

Lemma str_app_cons (c : ascii) (a b : string) :
  String c a +:+ b = String c (a +:+ b).
Proof. reflexivity. Qed.

Lemma str_app_nil_l (s : string) : "" +:+ s = s.
Proof. reflexivity. Qed.

Lemma str_app_nil_r (s : string) : s +:+ "" = s.
Proof.
  induction s as [|c s IH]; [done |]. by rewrite str_app_cons, IH.
Qed.

Lemma str_app_assoc (a b c : string) : (a +:+ b) +:+ c = a +:+ (b +:+ c).
Proof.
  induction a as [|x a IH]; [done |]. by rewrite !str_app_cons, IH.
Qed.

Lemma str_length_app (a b : string) :
  String.length (a +:+ b) = (String.length a + String.length b)%nat.
Proof.
  induction a as [|x a IH]; [done |]. rewrite str_app_cons. simpl. by rewrite IH.
Qed.

Lemma len_app (a b : string) : len (a +:+ b) = len a + len b.
Proof. unfold len. rewrite str_length_app. lia. Qed.

Lemma len_nonneg (s : string) : 0 <= len s.
Proof. unfold len. lia. Qed.

Lemma str_take_length (n : nat) (s : string) :
  String.length (str_take n s) = (n `min` String.length s)%nat.
Proof.
  revert s. induction n as [|n IH]; intros [|c s]; simpl; try done.
  by rewrite IH.
Qed.

Lemma str_take_all (n : nat) (s : string) :
  (String.length s ≤ n)%nat → str_take n s = s.
Proof.
  revert s. induction n as [|n IH]; intros [|c s] Hn; simpl in *; try done.
  - lia.
  - rewrite IH; [done | lia].
Qed.

Lemma str_rep_length (c : ascii) (n : nat) : String.length (str_rep c n) = n.
Proof. induction n as [|n IH]; simpl; [done | by rewrite IH]. Qed.

Lemma str_concat_app (l1 l2 : list string) :
  str_concat (l1 ++ l2) = str_concat l1 +:+ str_concat l2.
Proof.
  induction l1 as [|a l1 IH]; simpl; [done |].
  by rewrite IH, str_app_assoc.
Qed.

Lemma str_concat_snoc (l : list string) (a : string) :
  str_concat (l ++ [a]) = str_concat l +:+ a.
Proof. rewrite str_concat_app. simpl. by rewrite str_app_nil_r. Qed.

Lemma big_body_len : len big_body = 1048577.
Proof. unfold len, big_body. rewrite str_rep_length. lia. Qed.

(** ** The reference instance *)

Lemma not_after_total {A} (less : A → A → bool) :
  strict_weak less → Total (not_after less).
Proof.
  intros [Hasym _] a b. unfold not_after.
  destruct (less b a) eqn:Hba; [right; by apply Hasym | by left].
Qed.

Lemma not_after_trans {A} (less : A → A → bool) :
  strict_weak less → Transitive (not_after less).
Proof. intros [_ Htr] a b c Hab Hbc. unfold not_after in *. eauto. Qed.

Lemma ref_sort_sorted {A} (less : A → A → bool) (l : list A) :
  strict_weak less → StronglySorted (λ a b, less b a = false) (ref_sort less l).
Proof.
  intros Hsw. unfold ref_sort.
  pose proof (not_after_total less Hsw). pose proof (not_after_trans less Hsw).
  by apply (StronglySorted_merge_sort (not_after less)).
Qed.

Lemma ref_json_line (r : Record) (js : string) :
  ref_json r = Some js → Contains js nl = false.
Proof. unfold ref_json. intros [= <-]. by destruct (Stream r). Qed.

#[global] Instance refGoLib : GoLib := {|
  strings_ToLower := ref_ToLower;
  map_range := λ V m, map_to_list m;
  map_range_perm := λ V m, reflexivity _;
  sort_Slice := @ref_sort;
  sort_Slice_perm := λ A less l, merge_sort_Permutation (not_after less) l;
  sort_Slice_sorted := @ref_sort_sorted;
  json_Marshal := ref_json;
  json_Marshal_line := ref_json_line;
  json_string_field := λ _ _, None;
  time_Parse_RFC3339 := λ _, None;
  url_Parse := λ s, Some (mkURL "https" "api.openai.com" "/v1")
|}.

(** ** Request capture *)

Lemma io_LimitReader_data (r : Reader) (n : Z) :
  rd_data (io_LimitReader r n) = str_take (Z.to_nat n) (rd_data r).
Proof.
  unfold io_LimitReader.
  destruct (Z.leb_spec n 0) as [Hn | Hn].
  - simpl. replace (Z.to_nat n) with O by lia. by destruct (rd_data r).
  - destruct (Z.leb_spec n (len (rd_data r))) as [Hle | Hlt]; [done |].
    rewrite str_take_all; [done |]. unfold len in Hlt. lia.
Qed.

Lemma io_LimitReader_len (r : Reader) (n : Z) :
  0 <= n → len (rd_data (io_LimitReader r n)) = Z.min n (len (rd_data r)).
Proof.
  intros Hn. rewrite io_LimitReader_data. unfold len.
  rewrite str_take_length. lia.
Qed.

(** Whatever [captureRequestBody] returns without error, the body it leaves
    in the request is the captured prefix, and the record holds the same
    bytes. *)
Lemma captureRequestBody_body (cfg : Config) (r r' : Request) (rd : Reader)
    (record record' : Record) :
  rqBody r = Some rd →
  captureRequestBody cfg r record = inl (r', record') →
  rqBody r' = Some (bytes_NewReader (str_take (Z.to_nat (MaxBodyBytes cfg)) (rd_data rd)))
  ∧ RequestBody record' = str_take (Z.to_nat (MaxBodyBytes cfg)) (rd_data rd).
Proof.
  intros Hb. unfold captureRequestBody. rewrite Hb.
  destruct (io_ReadAll _) as [bdy | err] eqn:Hread; [| done].
  intros [= <- <-]. simpl.
  unfold io_ReadAll in Hread.
  destruct (rd_err _); [done |]. injection Hread as <-.
  by rewrite io_LimitReader_data.
Qed.

Section GatewayFacts.
Context `{GoLib}.

Lemma finishServe_forwarded w st bdy logs fw record :
  sv_forwarded (finishServe w st bdy logs fw record) = Some fw.
Proof. unfold finishServe. by destruct (workers_has_room w). Qed.

(** The body that [ServeHTTP] forwards is the captured prefix of the
    client's body. *)
Lemma ServeHTTP_forwards_captured (cfg : Config) (w : World) (r : Request)
    (rd : Reader) (fw : Forwarded) :
  rqBody r = Some rd →
  sv_forwarded (ServeHTTP cfg w r) = Some fw →
  fwBody fw = Some (str_take (Z.to_nat (MaxBodyBytes cfg)) (rd_data rd)).
Proof.
  intros Hb. unfold ServeHTTP.
  destruct (GetRouteByMount _ _) as [[providerName route] |]; [| done].
  destruct (url_Parse _) as [upstream |]; [| done].
  destruct (captureRequestBody _ _ _) as [[r' record'] | err] eqn:Hcap; [| done].
  destruct (captureRequestBody_body _ _ _ _ _ _ Hb Hcap) as [Hb' _].
  rewrite Hb'. simpl.
  set (fw0 := mkForwarded _ _ _ _ _).
  assert (fwBody fw0 = Some (str_take (Z.to_nat (MaxBodyBytes cfg)) (rd_data rd)))
    as Hfw0 by done.
  clearbody fw0.
  destruct (roundTrip w fw0) as [err | resp].
  { rewrite finishServe_forwarded. by intros [= <-]. }
  destruct (captureResponseBody _ _ _) as [[record'' [c |]] [err |]];
    try (rewrite finishServe_forwarded; by intros [= <-]).
  destruct (upBody resp) as [b |];
    try (rewrite finishServe_forwarded; by intros [= <-]).
  destruct (up_err b); simpl;
    try (rewrite finishServe_forwarded); by intros [= <-].
Qed.

(** When the body is longer than the ceiling, the upstream receives
    exactly the ceiling's worth of bytes. *)
Lemma ServeHTTP_oversize (cfg : Config) (w : World) (r : Request)
    (rd : Reader) (fw : Forwarded) :
  rqBody r = Some rd →
  sv_forwarded (ServeHTTP cfg w r) = Some fw →
  0 <= MaxBodyBytes cfg < len (rd_data rd) →
  ∃ sent, fwBody fw = Some sent
          ∧ len sent = MaxBodyBytes cfg
          ∧ sent ≠ rd_data rd.
Proof.
  intros Hb Hfw Hmax.
  pose proof (ServeHTTP_forwards_captured _ _ _ _ _ Hb Hfw) as Hsent.
  exists (str_take (Z.to_nat (MaxBodyBytes cfg)) (rd_data rd)).
  assert (len (str_take (Z.to_nat (MaxBodyBytes cfg)) (rd_data rd))
          = MaxBodyBytes cfg) as Hlen.
  { unfold len in *. rewrite str_take_length. lia. }
  split; [done |]. split; [done |].
  intros Heq. rewrite Heq in Hlen. lia.
Qed.

End GatewayFacts.

Lemma MaxBodyBytes_1MB : MaxBodyBytes cfg_1MB = 1048576.
Proof. reflexivity. Qed.

Lemma io_LimitReader_err (r : Reader) (n : Z) :
  rd_err r = None → rd_err (io_LimitReader r n) = None.
Proof.
  intros Hr. unfold io_LimitReader.
  destruct (n <=? 0); [done |]. by destruct (n <=? len (rd_data r)).
Qed.

Lemma route_openai :
  GetRouteByMount cfg_1MB (extractMount "/openai/chat/completions")
  = Some ("openai", mkRoute "/openai" "https://api.openai.com/v1").
Proof. vm_compute. reflexivity. Qed.

(** The example request is forwarded, whatever its body and the upstream's
    response. *)
Lemma post_chat_forwarded (b : string) (resp : UpResponse) :
  is_Some (sv_forwarded (ServeHTTP cfg_1MB (world_of resp) (post_chat (mkReader b None)))).
Proof.
  unfold ServeHTTP, post_chat. cbn [rqPath].
  rewrite route_openai. cbn [url_Parse refGoLib rUpstream].
  unfold captureRequestBody. cbn [rqBody].
  unfold io_ReadAll. rewrite io_LimitReader_err by done.
  cbn [roundTrip world_of].
  destruct (captureResponseBody _ _ _) as [[record'' [c |]] [err |]];
    try (rewrite finishServe_forwarded; by eexists).
  destruct (upBody resp) as [ub |];
    try (rewrite finishServe_forwarded; by eexists).
  destruct (up_err ub); [by eexists |].
  rewrite finishServe_forwarded; by eexists.
Qed.

(** C1 (the code departs from the claim).  With the ceiling at one mebibyte,
    a request to [/openai/chat/completions] whose body has 1048577 bytes is
    forwarded with a body of 1048576 bytes: the upstream receives the
    captured prefix, not the client's body. *)
Theorem C1_forwarded_body_is_truncated :
  ∀ resp : UpResponse,
    ∃ (fw : Forwarded) (sent : string),
      sv_forwarded (ServeHTTP cfg_1MB (world_of resp) (post_chat (mkReader big_body None)))
      = Some fw
      ∧ fwBody fw = Some sent
      ∧ len sent = 1048576
      ∧ len big_body = 1048577
      ∧ sent ≠ big_body.
Proof.
  intros resp.
  destruct (post_chat_forwarded big_body resp) as [fw Hfw].
  destruct (ServeHTTP_oversize cfg_1MB (world_of resp)
              (post_chat (mkReader big_body None)) (mkReader big_body None) fw
              eq_refl Hfw) as (sent & Hsent & Hlen & Hne).
  { rewrite MaxBodyBytes_1MB. cbn [rd_data]. rewrite big_body_len. lia. }
  exists fw, sent. rewrite MaxBodyBytes_1MB in Hlen.
  split; [exact Hfw |]. split; [exact Hsent |]. split; [exact Hlen |].
  split; [exact big_body_len | exact Hne].
Qed.

(** ** Failures on the capture path *)





Section CaptureFailures.
Context `{GoLib}.




End CaptureFailures.




(** ** The response body wrappers *)

Lemma body_run_app (l1 l2 : list BodyCall) (c : Capture) :
  body_run (l1 ++ l2) c = body_run l2 (body_run l1 c).
Proof. unfold body_run. apply foldl_app. Qed.

Lemma calls_split (calls : list BodyCall) :
  closed_in calls = true →
  ∃ post, calls = before_close calls ++ CallClose :: post.
Proof.
  induction calls as [| [data err |] rest IH]; simpl; intros Hc.
  - done.
  - destruct (IH Hc) as [post Hpost]. exists post. by rewrite <- Hpost.
  - by exists rest.
Qed.

Lemma before_close_all (calls : list BodyCall) :
  closed_in calls = false → before_close calls = calls.
Proof.
  induction calls as [| [data err |] rest IH]; simpl; intros Hc; try done.
  by rewrite IH.
Qed.

Lemma before_close_no_close (calls : list BodyCall) :
  closed_in (before_close calls) = false.
Proof. induction calls as [| [data err |] rest IH]; simpl; done. Qed.

(** A read touches the buffer and the chunks only. *)
Lemma bodyCapture_Read_frame (c : Capture) (data : string) (err : option string) :
  let c' := fst (bodyCapture_Read c data err) in
  cap_stream c' = cap_stream c ∧ cap_max c' = cap_max c
  ∧ cap_closed c' = cap_closed c ∧ cap_onClose_runs c' = cap_onClose_runs c
  ∧ cap_record c' = cap_record c.
Proof.
  unfold bodyCapture_Read, streamCapture_Read, teeReader_Read. simpl.
  destruct (cap_stream c) eqn:Hs, (0 <? len data); try done.
  destruct (len (cap_buf c) <? cap_max c); simpl; by rewrite ?Hs.
Qed.

Lemma body_run_cons (call : BodyCall) (rest : list BodyCall) (c : Capture) :
  body_run (call :: rest) c = body_run rest (body_step c call).
Proof. reflexivity. Qed.

Lemma reads_frame (calls : list BodyCall) (c : Capture) :
  closed_in calls = false →
  let c' := body_run calls c in
  cap_stream c' = cap_stream c ∧ cap_max c' = cap_max c
  ∧ cap_closed c' = cap_closed c ∧ cap_onClose_runs c' = cap_onClose_runs c
  ∧ cap_record c' = cap_record c.
Proof.
  revert c. induction calls as [| [data err |] rest IH]; intros c Hc.
  - done.
  - cbn zeta. rewrite body_run_cons. cbn [body_step].
    destruct (IH (fst (bodyCapture_Read c data err)) Hc) as (-> & -> & -> & -> & ->).
    apply bodyCapture_Read_frame.
  - done.
Qed.

(** Once the body is closed, no call changes the record again, and
    [onClose] does not run again. *)
Lemma closed_stable (calls : list BodyCall) (c : Capture) :
  cap_closed c = true →
  let c' := body_run calls c in
  cap_closed c' = true ∧ cap_onClose_runs c' = cap_onClose_runs c
  ∧ cap_record c' = cap_record c.
Proof.
  revert c. induction calls as [| [data err |] rest IH]; intros c Hc.
  - done.
  - cbn zeta. rewrite body_run_cons. cbn [body_step].
    destruct (bodyCapture_Read_frame c data err) as (_ & _ & Hcl & Hruns & Hrec).
    destruct (IH (fst (bodyCapture_Read c data err))) as (-> & -> & ->);
      [congruence |]. by rewrite Hruns, Hrec.
  - cbn zeta. rewrite body_run_cons. cbn [body_step].
    unfold bodyCapture_Close. rewrite Hc. by apply IH.
Qed.

(** The run of a trace on a body that is still open: [onClose] runs at the
    first [Close], on the state that the reads before it left, and never
    again. *)
Lemma body_run_closes (calls : list BodyCall) (c : Capture) :
  cap_closed c = false →
  let c' := body_run calls c in
  if closed_in calls then
    cap_closed c' = true
    ∧ cap_onClose_runs c' = S (cap_onClose_runs c)
    ∧ cap_record c' = onClose (body_run (before_close calls) c)
  else
    cap_closed c' = false
    ∧ cap_onClose_runs c' = cap_onClose_runs c
    ∧ cap_record c' = cap_record c.
Proof.
  intros Hopen. simpl.
  destruct (closed_in calls) eqn:Hc.
  - destruct (calls_split calls Hc) as [post Hpost].
    pose proof (before_close_no_close calls) as Hpre.
    destruct (reads_frame (before_close calls) c Hpre) as (_ & _ & Hcl & Hruns & _).
    rewrite Hpost at 1 2 3. rewrite body_run_app, body_run_cons.
    cbn [body_step].
    set (c1 := body_run (before_close calls) c) in *.
    assert (bodyCapture_Close c1
            = mkCapture (cap_stream c1) (cap_max c1) (cap_buf c1) (cap_chunks c1)
                true (S (cap_onClose_runs c1)) (onClose c1)) as Hclose.
    { unfold bodyCapture_Close. by rewrite Hcl, Hopen. }
    rewrite Hclose.
    destruct (closed_stable post
                (mkCapture (cap_stream c1) (cap_max c1) (cap_buf c1) (cap_chunks c1)
                   true (S (cap_onClose_runs c1)) (onClose c1)) eq_refl)
      as (-> & -> & ->).
    simpl. by rewrite Hruns.
  - destruct (reads_frame calls c Hc) as (_ & _ & -> & -> & ->). done.
Qed.

(** C10.  For every response with a body and every sequence of calls on the
    installed body: [onClose] runs at most once; it runs at the first
    [Close], writing to the record the snapshot of the buffer and the
    chunks as the reads before that [Close] left them; no later call, a
    further [Close] included, runs it again or changes the record. *)
Theorem C10_onClose_runs_at_most_once (cfg : Config) (resp : UpResponse)
    (record record' : Record) (c : Capture) (calls : list BodyCall) :
  captureResponseBody cfg resp record = (record', Some c, None) →
  let c' := body_run calls c in
  (cap_onClose_runs c' ≤ 1)%nat
  ∧ (closed_in calls = true →
       cap_onClose_runs c' = 1%nat
       ∧ cap_record c' = onClose (body_run (before_close calls) c)
       ∧ ∀ more, cap_onClose_runs (body_run (calls ++ more) c) = 1%nat
                 ∧ cap_record (body_run (calls ++ more) c) = cap_record c')
  ∧ (closed_in calls = false →
       cap_onClose_runs c' = 0%nat ∧ cap_record c' = record').
Proof.
  intros Hcap. cbn zeta.
  assert (cap_closed c = false ∧ cap_onClose_runs c = 0%nat ∧ cap_record c = record')
    as (Hopen & Hruns & Hrec).
  { unfold captureResponseBody in Hcap. destruct (upBody resp); [| done].
    by injection Hcap as <- <-. }
  pose proof (body_run_closes calls c Hopen) as Hrun. cbn zeta in Hrun.
  destruct (closed_in calls) eqn:Hc.
  - destruct Hrun as (Hcl & Hr & Hrecord). rewrite Hruns in Hr.
    split; [lia |]. split; [| done].
    intros _. split; [done |]. split; [done |].
    intros more. rewrite body_run_app.
    destruct (closed_stable more (body_run calls c) Hcl) as (_ & -> & ->).
    done.
  - destruct Hrun as (_ & Hr & Hrecord). rewrite Hruns in Hr.
    split; [lia |]. split; [done |]. intros _. by rewrite Hr, Hrecord, Hrec.
Qed.

Lemma C10_onClose_runs_at_most_once_witness :
  let record := mkRecord "id-1" 1000 "openai" "POST" "/openai/chat" "up" 200 0
                  "{}" "" true [] 2 0 "" None in
  let c := mkCapture true 1048576 "" [] false 0 record in
  let c' := body_run [CallRead "a" None; CallClose; CallRead "b" None; CallClose] c in
  cap_onClose_runs c' = 1%nat
  ∧ ResponseBody (cap_record c') = "a"
  ∧ ResponseChunks (cap_record c') = ["a"].
Proof.
  intros record c c'.
  destruct (C10_onClose_runs_at_most_once cfg_1MB (sse_response ["a"; "b"])
              (with_Stream record false) record c
              [CallRead "a" None; CallClose; CallRead "b" None; CallClose]
              eq_refl) as (_ & Hclosed & _).
  destruct (Hclosed eq_refl) as (Hruns & Hrec & _).
  split; [exact Hruns |].
  subst c'. rewrite Hrec. split; reflexivity.
Defined.

(** ** What the wrappers capture *)

Lemma reads_of_app (l1 l2 : list BodyCall) :
  reads_of (l1 ++ l2) = reads_of l1 ++ reads_of l2.
Proof.
  induction l1 as [| [data err |] l1 IH]; simpl; [done | by rewrite IH | done].
Qed.

(** Non-stream: the tee copies every read into the buffer, without limit. *)
Lemma tee_reads (calls : list BodyCall) (c : Capture) :
  cap_stream c = false →
  closed_in calls = false →
  cap_buf (body_run calls c) = cap_buf c +:+ str_concat (reads_of calls)
  ∧ cap_chunks (body_run calls c) = cap_chunks c.
Proof.
  revert c. induction calls as [| [data err |] rest IH]; intros c Hs Hc.
  - simpl. by rewrite str_app_nil_r.
  - rewrite body_run_cons. cbn [body_step reads_of].
    destruct (bodyCapture_Read_frame c data err) as (Hs' & _).
    destruct (IH (fst (bodyCapture_Read c data err))) as [-> ->];
      [congruence | done |].
    unfold bodyCapture_Read, teeReader_Read. rewrite Hs. cbn [fst].
    destruct (Z.ltb_spec 0 (len data)) as [Hpos | Hzero]; cbn [cap_buf cap_chunks].
    + split; [| done]. cbn [str_concat foldr]. by rewrite str_app_assoc.
    + split; [| done]. destruct data as [| x data]; [done |].
      unfold len in Hzero. simpl in Hzero. lia.
  - done.
Qed.

(** Stream: once the buffer has reached the ceiling, reads leave the state
    as it is. *)
Lemma stream_full_stable (calls : list BodyCall) (c : Capture) :
  cap_stream c = true →
  closed_in calls = false →
  cap_max c <= len (cap_buf c) →
  body_run calls c = c.
Proof.
  intros Hs Hc Hfull. induction calls as [| [data err |] rest IH].
  - done.
  - rewrite body_run_cons. cbn [body_step].
    assert (fst (bodyCapture_Read c data err) = c) as ->.
    { unfold bodyCapture_Read, streamCapture_Read. rewrite Hs. cbn [fst].
      destruct (0 <? len data); [| done].
      destruct (Z.ltb_spec (len (cap_buf c)) (cap_max c)); [lia | done]. }
    by apply IH.
  - done.
Qed.

(** Stream: the chunks are a prefix of the non-empty reads, in the order
    of the reads, and the buffer is their concatenation. *)
Lemma stream_reads (calls : list BodyCall) (c : Capture) :
  cap_stream c = true →
  closed_in calls = false →
  ∃ k : nat,
    cap_chunks (body_run calls c)
    = cap_chunks c ++ take k (filter (λ d, 0 < len d) (reads_of calls))
    ∧ cap_buf (body_run calls c)
      = cap_buf c +:+ str_concat (take k (filter (λ d, 0 < len d) (reads_of calls))).
Proof.
  revert c. induction calls as [| [data err |] rest IH]; intros c Hs Hc.
  - exists 0%nat. simpl. by rewrite app_nil_r, str_app_nil_r.
  - rewrite body_run_cons. cbn [body_step reads_of].
    destruct c as [s m buf ch cl runs rec]. cbn [cap_stream] in Hs. subst s.
    unfold bodyCapture_Read, streamCapture_Read.
    cbn [fst cap_stream cap_max cap_buf cap_chunks cap_closed cap_onClose_runs
         cap_record].
    rewrite filter_cons.
    destruct (0 <? len data) eqn:Hpos.
    + apply Z.ltb_lt in Hpos. rewrite decide_True by done.
      destruct (len buf <? m) eqn:Hroom.
      * destruct (IH (mkCapture true m (buf +:+ data) (ch ++ [data]) cl runs rec)
                    eq_refl Hc) as (k & Hch & Hbuf).
        exists (S k). rewrite Hch, Hbuf. cbn [cap_chunks cap_buf take].
        split; [by rewrite <- app_assoc |].
        cbn [str_concat foldr]. by rewrite str_app_assoc.
      * apply Z.ltb_ge in Hroom. exists 0%nat.
        rewrite stream_full_stable by done.
        cbn [take cap_chunks cap_buf]. by rewrite app_nil_r, str_app_nil_r.
    + apply Z.ltb_ge in Hpos. rewrite decide_False by lia.
      by apply (IH (mkCapture true m buf ch cl runs rec)).
  - done.
Qed.

Lemma proxy_calls_before_close (b : UpBody) :
  before_close (proxy_calls b)
  = map (λ d, CallRead d None) (up_reads b)
    ++ [CallRead "" (Some (default "EOF" (up_err b)))].
Proof.
  unfold proxy_calls. induction (up_reads b) as [| d l IH]; simpl; [done |].
  by rewrite IH.
Qed.

Lemma proxy_calls_closed (b : UpBody) : closed_in (proxy_calls b) = true.
Proof.
  unfold proxy_calls, closed_in. rewrite existsb_app. simpl.
  by rewrite orb_true_r.
Qed.

Lemma proxy_calls_reads (b : UpBody) :
  reads_of (before_close (proxy_calls b)) = up_reads b ++ [""].
Proof.
  rewrite proxy_calls_before_close, reads_of_app. simpl. f_equal.
  induction (up_reads b) as [| d l IH]; simpl; [done | by rewrite IH].
Qed.

Lemma proxy_calls_nonempty_reads (b : UpBody) :
  filter (λ d, 0 < len d) (reads_of (before_close (proxy_calls b)))
  = filter (λ d, 0 < len d) (up_reads b).
Proof.
  rewrite proxy_calls_reads, filter_app. simpl.
  rewrite filter_cons, decide_False by (unfold len; simpl; lia).
  by rewrite filter_nil, app_nil_r.
Qed.

(** ** The record that [ServeHTTP] hands to the storage workers *)

Section Enqueued.
Context `{GoLib}.

(** The last two assignments of [ServeHTTP] leave the response fields. *)
Lemma finish_response_fields (record : Record) (ms : Z) :
  let rec := extractModelHint (with_DurationMS record ms) in
  ResponseBody rec = ResponseBody record
  ∧ ResponseChunks rec = ResponseChunks record
  ∧ SizeResBytes rec = SizeResBytes record
  ∧ Stream rec = Stream record.
Proof.
  unfold extractModelHint. simpl.
  destruct (String.eqb _ _); [done |].
  by destruct (json_string_field _ _).
Qed.

Lemma finishServe_enqueued w st bdy logs fw record rec :
  sv_enqueued (finishServe w st bdy logs fw record) = Some rec →
  rec = extractModelHint (with_DurationMS record (time_Since_ms w)).
Proof.
  unfold finishServe. destruct (workers_has_room w); [| done]. by intros [= <-].
Qed.

Lemma captureRequestBody_response_fields cfg r r' record record' :
  captureRequestBody cfg r record = inl (r', record') →
  ResponseChunks record' = ResponseChunks record
  ∧ Stream record' = Stream record.
Proof.
  unfold captureRequestBody. destruct (rqBody r); [| by intros [= <- <-]].
  destruct (io_ReadAll _); [| done]. by intros [= <- <-].
Qed.

(** Every record that is enqueued comes from one of three paths: the round
    trip failed; the response had no body; or the response body was copied
    to its end and closed. *)
Lemma ServeHTTP_enqueued_inv (cfg : Config) (w : World) (r : Request) (rec : Record) :
  sv_enqueued (ServeHTTP cfg w r) = Some rec →
  ∃ (fw : Forwarded) (record' : Record),
    sv_forwarded (ServeHTTP cfg w r) = Some fw
    ∧ ResponseChunks record' = [] ∧ Stream record' = false
    ∧ match roundTrip w fw with
      | TransportError _ =>
          rec = extractModelHint (with_DurationMS record' (time_Since_ms w))
      | Responded resp =>
          match upBody resp with
          | None =>
              rec = extractModelHint
                      (with_DurationMS (with_Status record' (upStatusCode resp))
                         (time_Since_ms w))
          | Some b =>
              up_err b = None
              ∧ rec = extractModelHint
                        (with_DurationMS
                           (cap_record
                              (body_run (proxy_calls b)
                                 (mkCapture (isStreamResponse resp) (MaxBodyBytes cfg)
                                    "" [] false 0
                                    (with_Stream
                                       (with_Status record' (upStatusCode resp))
                                       (isStreamResponse resp)))))
                           (time_Since_ms w))
          end
      end.
Proof.
  unfold ServeHTTP.
  destruct (GetRouteByMount _ _) as [[providerName route] |]; [| done].
  destruct (url_Parse _) as [upstream |]; [| done].
  destruct (captureRequestBody _ _ _) as [[r' record'] | err] eqn:Hcap; [| done].
  destruct (captureRequestBody_response_fields _ _ _ _ _ Hcap) as [Hch Hst].
  cbn [ResponseChunks Stream] in Hch, Hst.
  set (fw0 := mkForwarded _ _ _ _ _). clearbody fw0.
  destruct (roundTrip w fw0) as [err | resp] eqn:Hrt.
  { intros Henq. exists fw0, record'. rewrite finishServe_forwarded, Hrt.
    repeat split; try done. by eapply finishServe_enqueued. }
  unfold captureResponseBody.
  destruct (upBody resp) as [b |] eqn:Hub.
  - destruct (up_err b) eqn:Herr; [done |].
    intros Henq. exists fw0, record'. rewrite finishServe_forwarded, Hrt, Hub.
    repeat split; try done. by eapply finishServe_enqueued.
  - intros Henq. exists fw0, record'. rewrite finishServe_forwarded, Hrt, Hub.
    repeat split; try done. by eapply finishServe_enqueued.
Qed.

(** The record of a response whose body was copied to its end. *)
Lemma proxied_record (cfg : Config) (resp : UpResponse) (b : UpBody) (record : Record) :
  let c := mkCapture (isStreamResponse resp) (MaxBodyBytes cfg) "" [] false 0
             (with_Stream record (isStreamResponse resp)) in
  cap_record (body_run (proxy_calls b) c)
  = onClose (body_run (before_close (proxy_calls b)) c).
Proof.
  intros c.
  pose proof (body_run_closes (proxy_calls b) c eq_refl) as Hrun.
  cbn zeta in Hrun. rewrite proxy_calls_closed in Hrun. by destruct Hrun as (_ & _ & ->).
Qed.

End Enqueued.

(** ** Stream records *)

(** C4.  For every record that [ServeHTTP] enqueues with the stream flag
    set: the concatenation of [ResponseChunks] in order is [ResponseBody],
    and the chunks are an initial segment of the non-empty byte groups that
    the reads of the upstream body returned, in the order of the reads, one
    chunk per captured read. *)
Theorem C4_stream_chunks_concat `{GoLib} (cfg : Config) (w : World) (r : Request)
    (rec : Record) :
  sv_enqueued (ServeHTTP cfg w r) = Some rec →
  Stream rec = true →
  str_concat (ResponseChunks rec) = ResponseBody rec
  ∧ ∃ (fw : Forwarded) (resp : UpResponse) (b : UpBody) (k : nat),
      sv_forwarded (ServeHTTP cfg w r) = Some fw
      ∧ roundTrip w fw = Responded resp
      ∧ upBody resp = Some b
      ∧ ResponseChunks rec = take k (filter (λ d, 0 < len d) (up_reads b)).
Proof.
  intros Henq Hstream.
  destruct (ServeHTTP_enqueued_inv cfg w r rec Henq)
    as (fw & record' & Hfw & Hch0 & Hst0 & Hrec).
  destruct (roundTrip w fw) as [err | resp] eqn:Hrt.
  { subst rec.
    destruct (finish_response_fields record' (time_Since_ms w)) as (_ & _ & _ & Hs).
    cbn zeta in Hs. congruence. }
  destruct (upBody resp) as [b |] eqn:Hub.
  2: { subst rec.
       destruct (finish_response_fields (with_Status record' (upStatusCode resp))
                   (time_Since_ms w)) as (_ & _ & _ & Hs).
       cbn zeta in Hs. rewrite Hs in Hstream. simpl in Hstream. congruence. }
  destruct Hrec as [Herr ->].
  rewrite proxied_record in *.
  set (c := mkCapture (isStreamResponse resp) (MaxBodyBytes cfg) "" [] false 0
              (with_Stream (with_Status record' (upStatusCode resp))
                 (isStreamResponse resp))) in *.
  set (pre := before_close (proxy_calls b)) in *.
  destruct (finish_response_fields (onClose (body_run pre c)) (time_Since_ms w))
    as (Hbody & Hchunks & _ & Hs).
  cbn zeta in Hbody, Hchunks, Hs. rewrite Hs in Hstream. rewrite Hbody, Hchunks.
  destruct (reads_frame pre c (before_close_no_close _)) as (_ & _ & _ & _ & Hrecord).
  assert (isStreamResponse resp = true) as Hsr.
  { unfold onClose in Hstream. simpl in Hstream. by rewrite Hrecord in Hstream. }
  destruct (stream_reads pre c Hsr (before_close_no_close _)) as (k & Hk & Hbuf).
  cbn [cap_chunks cap_buf c app] in Hk, Hbuf. rewrite str_app_nil_l in Hbuf.
  unfold pre in Hk, Hbuf. rewrite proxy_calls_nonempty_reads in Hk, Hbuf.
  assert (ResponseChunks (onClose (body_run pre c))
          = take k (filter (λ d, 0 < len d) (up_reads b))) as Hres.
  { unfold onClose. cbn [ResponseChunks with_response]. fold pre in Hk.
    rewrite Hk, Hrecord.
    destruct (0 <? _) eqn:Hlen; [done |]. apply Z.ltb_ge in Hlen.
    cbn [ResponseChunks with_Stream with_Status].
    destruct (take k _) as [| x l]; [exact Hch0 | simpl in Hlen; lia]. }
  split.
  - rewrite Hres. unfold onClose. cbn [ResponseBody with_response].
    fold pre in Hbuf. by rewrite Hbuf.
  - exists fw, resp, b, k. by rewrite Hres.
Qed.

Lemma C4_stream_chunks_concat_witness :
  let sv := ServeHTTP cfg_1MB (world_of (sse_response ["data: 1"; ""; "data: 2"]))
              (post_chat (mkReader "{}" None)) in
  ∃ rec : Record,
    sv_enqueued sv = Some rec
    ∧ Stream rec = true
    ∧ ResponseChunks rec = ["data: 1"; "data: 2"]
    ∧ str_concat (ResponseChunks rec) = ResponseBody rec.
Proof.
  intros sv.
  assert (∃ rec : Record, sv_enqueued sv = Some rec ∧ Stream rec = true
                          ∧ ResponseChunks rec = ["data: 1"; "data: 2"])
    as (rec & Henq & Hs & Hch).
  { vm_compute. eexists. repeat split; reflexivity. }
  exists rec. split; [exact Henq |]. split; [exact Hs |]. split; [exact Hch |].
  exact (proj1 (C4_stream_chunks_concat cfg_1MB
                  (world_of (sse_response ["data: 1"; ""; "data: 2"]))
                  (post_chat (mkReader "{}" None)) rec Henq Hs)).
Defined.

(** ** Non-stream records *)

Section NonStream.
Context `{GoLib}.

(** The record of a non-stream response holds every byte that was read
    from the upstream body, and their number: no ceiling applies. *)
Lemma ServeHTTP_nonstream_record (cfg : Config) (w : World) (r : Request)
    (rec : Record) (fw : Forwarded) (resp : UpResponse) (b : UpBody) :
  sv_enqueued (ServeHTTP cfg w r) = Some rec →
  sv_forwarded (ServeHTTP cfg w r) = Some fw →
  roundTrip w fw = Responded resp →
  upBody resp = Some b →
  isStreamResponse resp = false →
  Stream rec = false
  ∧ ResponseBody rec = str_concat (up_reads b)
  ∧ SizeResBytes rec = len (str_concat (up_reads b)).
Proof.
  intros Henq Hfw Hrt Hub Hns.
  destruct (ServeHTTP_enqueued_inv cfg w r rec Henq)
    as (fw' & record' & Hfw' & Hch0 & Hst0 & Hrec).
  assert (fw' = fw) as -> by congruence.
  rewrite Hrt, Hub in Hrec. destruct Hrec as [Herr ->].
  rewrite proxied_record. rewrite Hns.
  set (c := mkCapture false (MaxBodyBytes cfg) "" [] false 0
              (with_Stream (with_Status record' (upStatusCode resp)) false)).
  set (pre := before_close (proxy_calls b)).
  destruct (finish_response_fields (onClose (body_run pre c)) (time_Since_ms w))
    as (-> & _ & -> & ->).
  destruct (reads_frame pre c (before_close_no_close _)) as (_ & _ & _ & _ & Hrecord).
  destruct (tee_reads pre c eq_refl (before_close_no_close _)) as [Hbuf _].
  cbn [cap_buf c] in Hbuf. rewrite str_app_nil_l in Hbuf.
  unfold pre in Hbuf. rewrite proxy_calls_reads, str_concat_snoc, str_app_nil_r in Hbuf.
  fold pre in Hbuf.
  unfold onClose. cbn [Stream ResponseBody SizeResBytes with_response].
  rewrite Hrecord, Hbuf. done.
Qed.

End NonStream.

Lemma str_concat_replicate_len (n : nat) (s : string) :
  len (str_concat (replicate n s)) = Z.of_nat n * len s.
Proof.
  induction n as [| n IH]; [done |].
  cbn [replicate str_concat foldr]. fold (str_concat (replicate n s)).
  rewrite len_app, IH. lia.
Qed.

Lemma kib_reads_len : len (str_concat kib_reads) = 1049600.
Proof.
  unfold kib_reads. rewrite str_concat_replicate_len.
  unfold len at 1. rewrite str_rep_length. lia.
Qed.

(** The example request is served to its end, whatever the reads of the
    upstream body. *)
Lemma post_chat_json_enqueued (reads : list string) :
  let w := world_of (json_response reads) in
  let r := post_chat (mkReader "{}" None) in
  is_Some (sv_enqueued (ServeHTTP cfg_1MB w r))
  ∧ sv_forwarded (ServeHTTP cfg_1MB w r)
    = Some (mkForwarded "POST" "https" "api.openai.com" "/v1/chat/completions"
              (Some "{}")).
Proof. vm_compute. split; [by eexists | reflexivity]. Qed.

(** C3 (the code departs from the claim).  With the ceiling at one
    mebibyte, a non-stream response of 1025 reads of 1024 bytes each is
    stored whole: [ResponseBody] has 1049600 bytes, more than the ceiling
    of 1048576. *)
Theorem C3_nonstream_body_exceeds_ceiling :
  ∃ rec : Record,
    sv_enqueued (ServeHTTP cfg_1MB (world_of (json_response kib_reads))
                   (post_chat (mkReader "{}" None))) = Some rec
    ∧ Stream rec = false
    ∧ MaxBodyBytes cfg_1MB = 1048576
    ∧ len (ResponseBody rec) = 1049600
    ∧ SizeResBytes rec = 1049600.
Proof.
  destruct (post_chat_json_enqueued kib_reads) as [[rec Henq] Hfw].
  exists rec.
  destruct (ServeHTTP_nonstream_record cfg_1MB (world_of (json_response kib_reads))
              (post_chat (mkReader "{}" None)) rec _ (json_response kib_reads)
              (mkUpBody kib_reads None) Henq Hfw eq_refl eq_refl eq_refl)
    as (Hs & Hbody & Hsize).
  cbn [up_reads] in Hbody, Hsize.
  split; [exact Henq |]. split; [exact Hs |]. split; [exact MaxBodyBytes_1MB |].
  rewrite Hbody, Hsize. split; exact kib_reads_len.
Qed.

(** ** The store: [List] *)

Lemma wrap64_small (z : Z) : - 2 ^ 63 <= z < 2 ^ 63 → wrap64 z = z.
Proof. intros Hz. unfold wrap64. rewrite Z.mod_small; lia. Qed.

Lemma less_newest_strict_weak {C E} : strict_weak (@less_newest C E).
Proof.
  unfold less_newest, After. split.
  - intros a b Hab. apply Z.ltb_lt in Hab. apply Z.ltb_ge. lia.
  - intros a b c Hab Hbc. apply Z.ltb_ge in Hab, Hbc. apply Z.ltb_ge. lia.
Qed.

Lemma less_oldest_strict_weak {C E} : strict_weak (@less_oldest C E).
Proof.
  unfold less_oldest, Before. split.
  - intros a b Hab. apply Z.ltb_lt in Hab. apply Z.ltb_ge. lia.
  - intros a b c Hab Hbc. apply Z.ltb_ge in Hab, Hbc. apply Z.ltb_ge. lia.
Qed.

Lemma StronglySorted_weaken {A} (R1 R2 : A → A → Prop) (l : list A) :
  (∀ a b, R1 a b → R2 a b) → StronglySorted R1 l → StronglySorted R2 l.
Proof.
  intros HR. induction 1 as [| a l Hl IH Hall]; constructor; [done |].
  eapply Forall_impl; [exact Hall | auto].
Qed.

Lemma StronglySorted_take {A} (R : A → A → Prop) (l : list A) (n : nat) :
  StronglySorted R l → StronglySorted R (take n l).
Proof.
  intros Hl. rewrite <- (take_drop n l) in Hl. by apply StronglySorted_app_1_l in Hl.
Qed.

Lemma StronglySorted_drop {A} (R : A → A → Prop) (l : list A) (n : nat) :
  StronglySorted R l → StronglySorted R (drop n l).
Proof.
  intros Hl. rewrite <- (take_drop n l) in Hl. by apply StronglySorted_app_1_r in Hl.
Qed.

Section ListFacts.
Context `{GoLib}.
Context {C E : Type}.
Implicit Types (s : Store C E) (q : Query).

Lemma sortRecords_perm (l : list (Record_ C E)) (sortBy : string) :
  sortRecords l sortBy ≡ₚ l.
Proof. unfold sortRecords. destruct (String.eqb _ _); apply sort_Slice_perm. Qed.

Lemma sortRecords_newest (l : list (Record_ C E)) :
  newest_first (sortRecords l "-ts").
Proof.
  unfold sortRecords, newest_first. cbn [String.eqb Ascii.eqb Bool.eqb].
  eapply StronglySorted_weaken;
    [| apply (sort_Slice_sorted _ less_newest l less_newest_strict_weak)].
  intros a b Hab. unfold less_newest, After in Hab. by apply Z.ltb_ge in Hab.
Qed.

Lemma filterRecords_perm s q :
  filterRecords s q
  ≡ₚ filter (λ r, matchesQuery r q = true) (map snd (map_to_list (records s))).
Proof. unfold filterRecords. by rewrite map_range_perm. Qed.

(** The matches, sorted, are the records of the store that satisfy the
    filter, each once. *)
Lemma sorted_matches_perm s q :
  sortRecords (filterRecords s q) (qSort q)
  ≡ₚ filter (λ r, matchesQuery r q = true) (map snd (map_to_list (records s))).
Proof. by rewrite sortRecords_perm, filterRecords_perm. Qed.

Lemma sorted_matches_length s q :
  Z.of_nat (length (sortRecords (filterRecords s q) (qSort q))) = count_matching s q.
Proof. unfold count_matching. by rewrite sorted_matches_perm. Qed.

(** The filter does not look at the paging fields. *)
Lemma matchesQuery_paging (r : Record_ C E) q (offset limit : Z) :
  matchesQuery r (set_paging q offset limit) = matchesQuery r q.
Proof. reflexivity. Qed.

Lemma filterRecords_paging s q (offset limit : Z) :
  filterRecords s (set_paging q offset limit) = filterRecords s q.
Proof. reflexivity. Qed.

Lemma count_matching_paging s q (offset limit : Z) :
  count_matching s (set_paging q offset limit) = count_matching s q.
Proof. reflexivity. Qed.

(** When [List] returns, the total is the number of matches. *)
Lemma List_total s q page total err :
  List s q = Ok (page, total, err) → total = count_matching s q ∧ err = None.
Proof.
  unfold List. destruct (slice_copy _ _ _); [| done].
  intros [= <- <- <-]. by rewrite sorted_matches_length.
Qed.

(** The paging arithmetic of [List] on a list [l], in range. *)
Lemma slice_copy_paging (l : list (Record_ C E)) (offset limit : Z) :
  0 <= offset →
  limit <= 0 ∨ offset + limit < 2 ^ 63 →
  slice_copy l
    (if Z.of_nat (length l) <? offset then Z.of_nat (length l) else offset)
    (if (limit <=? 0)
        || (Z.of_nat (length l)
            <? wrap64 ((if Z.of_nat (length l) <? offset
                        then Z.of_nat (length l) else offset) + limit))
     then Z.of_nat (length l)
     else wrap64 ((if Z.of_nat (length l) <? offset
                   then Z.of_nat (length l) else offset) + limit))
  = Ok (if limit <=? 0 then drop (Z.to_nat offset) l
        else take (Z.to_nat limit) (drop (Z.to_nat offset) l)).
Proof.
  intros Hoff Hlim.
  set (total := Z.of_nat (length l)) in *.
  assert (total = Z.of_nat (length l)) as Htotal by done. clearbody total.
  set (start := if total <? offset then total else offset).
  assert (0 <= start <= total ∧ start <= offset) as Hstart.
  { unfold start. destruct (Z.ltb_spec total offset); lia. }
  set (end_ := if (limit <=? 0) || (total <? wrap64 (start + limit))
               then total else wrap64 (start + limit)).
  unfold slice_copy. rewrite <- Htotal.
  assert (start <= end_ <= total
          ∧ end_ - start = if limit <=? 0 then total - start
                           else Z.min limit (total - start)) as Hend.
  { unfold end_. destruct (Z.leb_spec limit 0) as [Hneg | Hpos]; cbn [orb]; [lia |].
    rewrite wrap64_small by lia.
    destruct (Z.ltb_spec total (start + limit)); lia. }
  replace ((start <? 0) || (end_ <? start) || (total <? end_)) with false
    by (symmetry; rewrite !orb_false_iff, !Z.ltb_ge; lia).
  f_equal. destruct Hend as [_ ->].
  unfold start in *. clear end_ Hstart. clear start.
  destruct (Z.ltb_spec total offset) as [Hbig | Hsmall].
  - rewrite (drop_ge l (Z.to_nat offset)) by lia.
    rewrite (drop_ge l (Z.to_nat total)) by lia.
    rewrite !take_nil. by destruct (limit <=? 0).
  - destruct (Z.leb_spec limit 0) as [Hneg | Hpos].
    + rewrite take_ge; [done |]. rewrite length_drop.
      clear -Htotal Hsmall Hoff. lia.
    + destruct (Z.min_spec limit (total - offset)) as [[_ ->] | [Hmin ->]]; [done |].
      rewrite !take_ge; [done | |]; rewrite length_drop;
        clear -Htotal Hsmall Hoff Hmin; lia.
Qed.

(** Paging in range: [List] returns the matches from [offset] on, at most
    [limit] of them when [limit] is positive. *)
Lemma List_in_range s q :
  0 <= qOffset q →
  qLimit q <= 0 ∨ qOffset q + qLimit q < 2 ^ 63 →
  let sorted := sortRecords (filterRecords s q) (qSort q) in
  List s q
  = Ok (if qLimit q <=? 0 then drop (Z.to_nat (qOffset q)) sorted
        else take (Z.to_nat (qLimit q)) (drop (Z.to_nat (qOffset q)) sorted),
        count_matching s q, None).
Proof.
  intros Hoff Hlim sorted. unfold List. cbv zeta. fold sorted.
  pose proof (sorted_matches_length s q) as Hlen. fold sorted in Hlen.
  rewrite slice_copy_paging by done.
  by rewrite Hlen.
Qed.

(** A negative offset is not clamped: the slice expression panics. *)
Lemma List_negative_offset s q : qOffset q < 0 → List s q = Panic.
Proof.
  intros Hneg. unfold List. cbv zeta.
  set (sorted := sortRecords _ _).
  destruct (Z.ltb_spec (Z.of_nat (length sorted)) (qOffset q)) as [Hlt | _]; [lia |].
  unfold slice_copy.
  destruct (Z.ltb_spec (qOffset q) 0) as [_ | Hge]; [done | lia].
Qed.

End ListFacts.

(** [GET /api/requests?offset=-1] is accepted by [parseQuery]. *)
Lemma parseQuery_offset_minus_one `{GoLib} :
  parseQuery offset_minus_one
  = inl (mkQuery None None None None None None None (-1) 50 "-ts").
Proof. reflexivity. Qed.

(** C5 (the code departs from the claim).  The query of
    [GET /api/requests?offset=-1] has offset -1 and limit 50; on every
    store [List] panics on it instead of returning a page: a negative
    offset is not clamped to the available range. *)
Theorem C5_negative_offset_panics `{GoLib} (s : Store (list string) (option string)) :
  ∃ q : Query,
    parseQuery offset_minus_one = inl q
    ∧ qOffset q = -1
    ∧ qLimit q = 50
    ∧ List s q = Panic.
Proof.
  exists (mkQuery None None None None None None None (-1) 50 "-ts").
  split; [apply parseQuery_offset_minus_one |].
  split; [done |]. split; [done |].
  by apply List_negative_offset.
Qed.

Lemma filter_all {A} (P : A → Prop) `{∀ x, Decision (P x)} (l : list A) :
  (∀ x, P x) → filter P l = l.
Proof.
  intros HP. induction l as [| x l IH]; [done |].
  by rewrite filter_cons, decide_True, IH.
Qed.

Lemma parseQuery_no_params `{GoLib} :
  parseQuery no_params = inl (mkQuery None None None None None None None 0 50 "-ts").
Proof. reflexivity. Qed.

(** C6.  For every store: the query of a request without parameters (no
    filter, offset 0, limit 50, sort "-ts") makes [List] return a page
    ordered by descending timestamp, of the first 50 records at most, with
    the number of records of the store as total; and whatever the query,
    the total that [List] returns is the number of records that satisfy
    the filter, a number that does not depend on offset and limit. *)
Theorem C6_default_list_newest_first `{GoLib} {C E : Type} (s : Store C E) :
  (∃ (q0 : Query) (page : list (Record_ C E)),
      parseQuery no_params = inl q0
      ∧ List s q0 = Ok (page, Z.of_nat (size (records s)), None)
      ∧ newest_first page
      ∧ length page = (50 `min` size (records s))%nat
      ∧ ∀ r, r ∈ page → ∃ id, records s !! id = Some r)
  ∧ (∀ q page total err,
       List s q = Ok (page, total, err) → total = count_matching s q)
  ∧ (∀ q offset limit,
       count_matching s (set_paging q offset limit) = count_matching s q).
Proof.
  split; [| split].
  - set (q0 := mkQuery None None None None None None None 0 50 "-ts").
    set (sorted := sortRecords (filterRecords s q0) "-ts").
    assert (sorted ≡ₚ map snd (map_to_list (records s))) as Hperm.
    { unfold sorted. change "-ts" with (qSort q0).
      rewrite (sorted_matches_perm s q0). by rewrite filter_all. }
    assert (count_matching s q0 = Z.of_nat (size (records s))) as Hcount.
    { unfold count_matching. rewrite filter_all by done.
      by rewrite length_map, length_map_to_list. }
    exists q0, (take 50 sorted).
    split; [apply parseQuery_no_params |].
    split.
    { rewrite (List_in_range s q0) by (cbn; lia). cbn. by rewrite Hcount. }
    split; [apply StronglySorted_take, sortRecords_newest |].
    split.
    { rewrite length_take, Hperm, length_map, length_map_to_list. done. }
    intros r Hr. apply (subseteq_take 50) in Hr. rewrite Hperm in Hr.
    apply list_elem_of_fmap in Hr as [[id r'] [-> Hin]].
    exists id. by apply elem_of_map_to_list in Hin.
  - intros q page total err Hlist. by apply List_total in Hlist as [-> _].
  - intros q offset limit. apply count_matching_paging.
Qed.

Lemma C6_default_list_newest_first_witness :
  let q := mkQuery None None None None None None None 1 1 "-ts" in
  List example_store q = Ok ([recA], 2, None)
  ∧ count_matching example_store q = 2.
Proof.
  intros q.
  assert (List example_store q = Ok ([recA], 2, None)) as Hlist
    by (vm_compute; reflexivity).
  split; [exact Hlist |].
  destruct (C6_default_list_newest_first example_store) as (_ & Htotal & _).
  symmetry. exact (Htotal q [recA] 2 None Hlist).
Defined.

(** A second way to leave the range: with one match, offset 1 and the
    largest limit, [start + limit] wraps around and [List] panics. *)
Lemma List_limit_overflow_panics :
  List (fst (Save New recA))
    (mkQuery None None None None None None None 1 (2 ^ 63 - 1) "-ts")
  = Panic.
Proof. vm_compute. reflexivity. Qed.

(** ** Export *)

Section ExportFacts.
Context `{GoLib}.


Lemma ExportNDJSON_all (s : Store (list string) (option string)) (q : Query) :
  ExportNDJSON s (set_paging q 0 0)
  = Ok (encodeRecords (sortRecords (filterRecords s q) (qSort q)) "").
Proof.
  unfold ExportNDJSON.
  rewrite (List_in_range s (set_paging q 0 0)) by (cbn; lia).
  reflexivity.
Qed.

End ExportFacts.




(** ** Chunk replay *)

Lemma written_app (l1 l2 : list Effect) : written (l1 ++ l2) = written l1 ++ written l2.
Proof.
  induction l1 as [| [d | | ms] l1 IH]; simpl; [done | by rewrite IH | done | done].
Qed.

Lemma without_sleeps_app (l1 l2 : list Effect) :
  without_sleeps (l1 ++ l2) = without_sleeps l1 ++ without_sleeps l2.
Proof.
  induction l1 as [| [d | | ms] l1 IH]; simpl; [done | by rewrite IH.. | done].
Qed.

(** The loop writes the chunks in order, each between [data: ] and two
    line feeds, and flushes after each. *)
Lemma replayChunks_frames (chunks : list string) (i n : Z) :
  written (replayChunks chunks i n)
  = map (λ chunk, "data: " +:+ chunk +:+ nl +:+ nl) chunks
  ∧ without_sleeps (replayChunks chunks i n)
    = flat_map (λ chunk, [Write ("data: " +:+ chunk +:+ nl +:+ nl); Flush]) chunks.
Proof.
  revert i. induction chunks as [| chunk rest IH]; intros i; [done |].
  cbn [replayChunks]. destruct (IH (i + 1)) as [Hw Hs].
  rewrite !written_app, !without_sleeps_app, Hw, Hs.
  by destruct (i <? n - 1).
Qed.

Lemma not_found_error (id : string) :
  Contains ("record not found: " +:+ id) "not found" = true.
Proof. reflexivity. Qed.

(** C8 (the code departs from the claim).  The upstream of a stream sends
    two events, [data: 1] and [data: 2], each closed by an empty line, and
    one read of the response body returns both.  The gateway captures the
    read as one chunk and a worker saves the record.  The replay of the
    record writes that chunk after [data: ] as it is, line feeds
    included, and a client reads two events from it, with the data
    [data: 1] and [2]: the one chunk is not emitted as one event, and no
    event carries the chunk. *)
Theorem C8_replay_splits_chunk :
  ∃ rec : Record,
    sv_enqueued (ServeHTTP cfg_1MB (world_of (sse_response [two_events]))
                   (post_chat (mkReader "{}" None))) = Some rec
    ∧ ID rec = "id-1"
    ∧ Stream rec = true
    ∧ ResponseChunks rec = [two_events]
    ∧ let reply := handleRequestChunks (fst (storageWorker New [rec])) true "id-1" in
      status reply = StatusOK
      ∧ headers reply !! "Content-Type" = Some "text/event-stream"
      ∧ written (effects reply) = ["data: " +:+ two_events +:+ nl +:+ nl]
      ∧ sse_events (body reply)
        = [mkSseEvent "message" "data: 1"; mkSseEvent "message" "2"].
Proof.
  eexists. split; [vm_compute; reflexivity |].
  vm_compute. repeat split; reflexivity.
Qed.

(** ** Copies and aliasing *)

(** [Save] then [Get] returns the record as it was saved: the struct
    fields are copied. *)
Lemma Get_Save {C E : Type} (s : Store C E) (r : Record_ C E) :
  Get (fst (Save s r)) (ID r) = inl r.
Proof. unfold Get, Save. cbn. by rewrite lookup_insert_eq. Qed.

(** C9 (the code departs from the claim).  [Save] and [Get] copy the record
    struct, and with it the slice header of [ResponseChunks], not the
    array behind it.  After [Save] of the record [B], an assignment to
    [got.ResponseChunks[0]] on a record obtained from [Get], or to
    [r.ResponseChunks[1]] on the caller's record, changes the chunks that
    the next [Get] and [List] return. *)
Theorem C9_shallow_copy_shares_chunks :
  let s := fst (Save New memB) in
  ∃ (got : Aliasing.MRecord) (h1 h2 : Aliasing.Heap),
    Get s "B" = inl got
    ∧ ResponseChunks (Aliasing.view heapB got) = ["data: 1"; "data: 2"]
    ∧ Aliasing.slice_store heapB (ResponseChunks got) 0 "X" = Ok h1
    ∧ (∃ again, Get s "B" = inl again
                ∧ ResponseChunks (Aliasing.view h1 again) = ["X"; "data: 2"])
    ∧ (∃ page, List s (mkQuery None None None None None None None 0 50 "-ts")
               = Ok (page, 1, None)
               ∧ map (λ r, ResponseChunks (Aliasing.view h1 r)) page
                 = [["X"; "data: 2"]])
    ∧ Aliasing.slice_store heapB (ResponseChunks memB) 1 "Y" = Ok h2
    ∧ (∃ again, Get s "B" = inl again
                ∧ ResponseChunks (Aliasing.view h2 again) = ["data: 1"; "Y"]).
Proof.
  intros s. exists memB.
  exists (Aliasing.mkHeap {[ 0%nat := ["X"; "data: 2"] ]} ∅).
  exists (Aliasing.mkHeap {[ 0%nat := ["data: 1"; "Y"] ]} ∅).
  split; [vm_compute; reflexivity |].
  split; [vm_compute; reflexivity |].
  split; [vm_compute; reflexivity |].
  split; [exists memB; split; vm_compute; reflexivity |].
  split; [exists [memB]; split; vm_compute; reflexivity |].
  split; [vm_compute; reflexivity |].
  exists memB; split; vm_compute; reflexivity.
Qed.

(** * Further properties *)

(** ** The store as a table *)

Section StoreTable.
Context {C E : Type}.
Implicit Types (s : Store C E) (r : Record_ C E).

(** X1.  [Save] never fails; the saved record is what [Get] returns under its
    id, and the answer of [Get] for every other id is as before. *)
Theorem Save_then_Get s r (id : string) :
  snd (Save s r) = None
  ∧ Get (fst (Save s r)) id = if decide (id = ID r) then inl r else Get s id.
Proof.
  split; [done |]. unfold Get, Save. cbn [fst records].
  destruct (decide (id = ID r)) as [-> | Hne].
  - by rewrite lookup_insert_eq.
  - by rewrite lookup_insert_ne.
Qed.

(** X2.  [Save] is an upsert: a second record with the same id replaces the
    first, and the number of records grows by one only for a new id. *)
Theorem Save_upsert s r :
  (∀ r', ID r' = ID r → fst (Save (fst (Save s r)) r') = fst (Save s r'))
  ∧ size (records (fst (Save s r)))
    = match records s !! ID r with
      | Some _ => size (records s)
      | None => S (size (records s))
      end.
Proof.
  split.
  - intros r' Hid. unfold Save. cbn [fst records]. rewrite Hid.
    by rewrite insert_insert_eq.
  - unfold Save. cbn [fst records].
    destruct (records s !! ID r) as [old |] eqn:Hold.
    + rewrite <- (insert_delete_id (records s) (ID r) old Hold) at 2.
      rewrite <- (insert_delete_eq (records s)).
      rewrite !map_size_insert_None by apply lookup_delete_eq. done.
    + by apply map_size_insert_None.
Qed.

(** X3.  After [Delete], [Get] of the same id answers "record not found",
    whether or not the id was there; [Delete] reports an error exactly when
    it was not, and then leaves the store as it is; the answer of [Get] for
    every other id is as before. *)
Theorem Delete_then_Get s (id : string) :
  Get (fst (Delete s id)) id = inr ("record not found: " +:+ id)
  ∧ (∀ id', id' ≠ id → Get (fst (Delete s id)) id' = Get s id')
  ∧ match records s !! id with
    | Some _ =>
        snd (Delete s id) = None
        ∧ S (size (records (fst (Delete s id)))) = size (records s)
    | None =>
        Delete s id = (s, Some ("record not found: " +:+ id))
    end.
Proof.
  unfold Delete, Get.
  destruct (records s !! id) as [old |] eqn:Hold; cbn [fst snd records].
  - rewrite lookup_delete_eq. split; [done |]. split.
    + intros id' Hne. by rewrite lookup_delete_ne.
    + split; [done |].
      rewrite <- (insert_delete_id (records s) id old Hold) at 2.
      by rewrite map_size_insert_None by apply lookup_delete_eq.
  - rewrite Hold. done.
Qed.

(** X4.  Saving a record under a new id and deleting that id gives the store
    back. *)
Theorem Save_then_Delete s r :
  records s !! ID r = None →
  Delete (fst (Save s r)) (ID r) = (s, None).
Proof.
  intros Hnew. unfold Delete, Save. cbn [fst records].
  rewrite lookup_insert_eq, delete_insert_id by done. by destruct s.
Qed.

End StoreTable.

Lemma Save_then_Delete_witness :
  Delete (fst (Save (fst (Save New recA)) recB)) "B" = (fst (Save New recA), None).
Proof.
  exact (Save_then_Delete (fst (Save New recA)) recB eq_refl).
Defined.

Lemma Save_upsert_witness :
  fst (Save (fst (Save New recA)) (with_Status recA 500))
  = fst (Save New (with_Status recA 500)).
Proof.
  exact (proj1 (Save_upsert New recA) (with_Status recA 500) eq_refl).
Defined.

(** ** The filter *)

Section Filter.
Context `{GoLib}.
Context {C E : Type}.
Implicit Types (s : Store C E) (r : Record_ C E) (q : Query).

Lemma if_false_iff (b x : bool) :
  (if b then false else x) = true ↔ b = false ∧ x = true.
Proof. destruct b; intuition congruence. Qed.

Lemma some_forall {A} (x : A) (P : A → Prop) :
  (∀ y, Some x = Some y → P y) ↔ P x.
Proof. split; [by auto | by intros HP y [= <-]]. Qed.

Lemma none_forall {A} (P : A → Prop) :
  (∀ y, @None A = Some y → P y) ↔ True.
Proof. done. Qed.

Lemma and_iff_compat (P P' Q Q' : Prop) : (P ↔ P') → (Q ↔ Q') → (P ∧ Q ↔ P' ∧ Q').
Proof. tauto. Qed.

(** X5.  The filters are combined by "and": a record matches when it satisfies
    every predicate that the query provides.  The provider and the status
    are compared exactly; the time range is inclusive at both ends; the
    model, URL and text filters are substring tests after lower-casing. *)
Theorem matchesQuery_iff r q :
  matchesQuery r q = true
  ↔ (∀ p, qProvider q = Some p → Provider r = p)
    ∧ (∀ st, qStatusEq q = Some st → Status r = st)
    ∧ (∀ from, qFrom q = Some from → from <= Timestamp r)
    ∧ (∀ to, qTo q = Some to → Timestamp r <= to)
    ∧ (∀ m, qModelLike q = Some m →
         Contains (strings_ToLower (ModelHint r)) (strings_ToLower m) = true)
    ∧ (∀ u, qURLLike q = Some u →
         Contains (strings_ToLower (URL r)) (strings_ToLower u) = true)
    ∧ (∀ t, qTextSearch q = Some t →
         Contains (strings_ToLower (RequestBody r +:+ " " +:+ ResponseBody r
                                    +:+ " " +:+ URL r +:+ " " +:+ ModelHint r))
           (strings_ToLower t) = true).
Proof.
  unfold matchesQuery. rewrite !if_false_iff.
  repeat apply and_iff_compat.
  - destruct (qProvider q) as [p |]; [| by rewrite none_forall].
    rewrite some_forall. destruct (String.eqb_spec (Provider r) p); naive_solver.
  - destruct (qStatusEq q) as [st |]; [| by rewrite none_forall].
    rewrite some_forall. destruct (Z.eqb_spec (Status r) st); naive_solver.
  - unfold Before. destruct (qFrom q) as [from |]; [| by rewrite none_forall].
    by rewrite some_forall, Z.ltb_ge.
  - unfold After. destruct (qTo q) as [to |]; [| by rewrite none_forall].
    by rewrite some_forall, Z.ltb_ge.
  - destruct (qModelLike q) as [m |]; [| by rewrite none_forall].
    rewrite some_forall. destruct (Contains _ _); naive_solver.
  - destruct (qURLLike q) as [u |]; [| by rewrite none_forall].
    rewrite some_forall. destruct (Contains _ _); naive_solver.
  - destruct (qTextSearch q) as [t |]; [| by rewrite none_forall].
    rewrite some_forall. cbv zeta. destruct (Contains _ _); naive_solver.
Qed.

End Filter.

(** ** [List]: what a page holds *)

Lemma wrap64_le (z : Z) : - 2 ^ 63 <= z → wrap64 z <= z.
Proof.
  intros Hz. unfold wrap64.
  pose proof (Z.mod_le (z + 2 ^ 63) (2 ^ 64)). lia.
Qed.

Lemma wrap64_overflow (z : Z) : 2 ^ 63 <= z < 2 ^ 64 → wrap64 z = z - 2 ^ 64.
Proof.
  intros Hz. unfold wrap64.
  replace (z + 2 ^ 63) with ((z - 2 ^ 63) + 1 * 2 ^ 64) by lia.
  rewrite Z.mod_add by lia. rewrite Z.mod_small; lia.
Qed.

Lemma slice_copy_Ok {A B : Type} (l page : list (Record_ A B)) (start end_ : Z) :
  slice_copy l start end_ = Ok page →
  0 <= start <= end_ ∧ end_ <= Z.of_nat (length l)
  ∧ page = take (Z.to_nat (end_ - start)) (drop (Z.to_nat start) l).
Proof.
  unfold slice_copy.
  destruct (Z.ltb_spec start 0), (Z.ltb_spec end_ start),
    (Z.ltb_spec (Z.of_nat (length l)) end_); cbn [orb]; try done.
  intros [= <-]. split; [lia |]. split; [lia | done].
Qed.

Lemma StronglySorted_sublist {A} (R : A → A → Prop) (l1 l2 : list A) :
  l1 `sublist_of` l2 → StronglySorted R l2 → StronglySorted R l1.
Proof.
  induction 1 as [| x l1 l2 Hsub IH | x l1 l2 Hsub IH]; intros Hsorted.
  - constructor.
  - apply StronglySorted_cons in Hsorted as [Hall Hsorted].
    apply StronglySorted_cons. split; [| by apply IH].
    rewrite Forall_forall in *. intros y Hy. apply Hall.
    by eapply elem_of_sublist.
  - apply StronglySorted_cons in Hsorted as [_ Hsorted]. by apply IH.
Qed.

Section ListPages.
Context `{GoLib}.
Context {C E : Type}.
Implicit Types (s : Store C E) (q : Query).

Lemma sortRecords_oldest (l : list (Record_ C E)) (sortBy : string) :
  sortBy ≠ "-ts" → oldest_first (sortRecords l sortBy).
Proof.
  intros Hsort. unfold sortRecords, oldest_first.
  destruct (String.eqb_spec sortBy "-ts") as [| _]; [done |].
  eapply StronglySorted_weaken;
    [| apply (sort_Slice_sorted _ less_oldest l less_oldest_strict_weak)].
  intros a b Hab. unfold less_oldest, Before in Hab. by apply Z.ltb_ge in Hab.
Qed.

(** X6.  Whatever [List] returns: every record of the page is a record of the
    store that satisfies the filter; no record of the store is on the page
    more often than it is in the store; the page has at most [total]
    records, and at most [limit] when the limit is positive. *)
Theorem List_page_sound s q page total err :
  List s q = Ok (page, total, err) →
  (∀ r, r ∈ page → matchesQuery r q = true ∧ ∃ id, records s !! id = Some r)
  ∧ page `sublist_of` sortRecords (filterRecords s q) (qSort q)
  ∧ Z.of_nat (length page) <= total
  ∧ (0 < qLimit q → Z.of_nat (length page) <= qLimit q).
Proof.
  unfold List. cbv zeta.
  set (sorted := sortRecords (filterRecords s q) (qSort q)).
  set (total0 := Z.of_nat (length sorted)).
  set (start := if total0 <? qOffset q then total0 else qOffset q).
  set (end0 := wrap64 (start + qLimit q)).
  set (end_ := if (qLimit q <=? 0) || (total0 <? end0) then total0 else end0).
  destruct (slice_copy sorted start end_) as [result |] eqn:Hslice; [| done].
  intros [= <- <- <-].
  apply slice_copy_Ok in Hslice as (Hstart & Hend & ->).
  assert (take (Z.to_nat (end_ - start)) (drop (Z.to_nat start) sorted)
          `sublist_of` sorted) as Hsub.
  { etrans; [apply sublist_take | apply sublist_drop]. }
  split; [| split; [done | split]].
  - intros r Hr. eapply elem_of_sublist in Hr; [| exact Hsub].
    unfold sorted in Hr. rewrite sorted_matches_perm in Hr.
    apply list_elem_of_filter in Hr as [Hmatch Hin]. split; [done |].
    apply list_elem_of_fmap in Hin as [[id r'] [-> Hin]].
    exists id. by apply elem_of_map_to_list in Hin.
  - apply sublist_length in Hsub. fold total0. lia.
  - intros Hlim. rewrite length_take, length_drop.
    assert (end_ - start <= qLimit q); [| lia].
    unfold end_. destruct (Z.leb_spec (qLimit q) 0) as [| _]; [lia |]. cbn [orb].
    pose proof (wrap64_le (start + qLimit q)) as Hwrap.
    destruct (Z.ltb_spec total0 end0) as [Hbig | Hsmall]; unfold end0 in *; lia.
Qed.

(** X7.  Whatever [List] returns is in the order of the sort key: newest first
    for "-ts", and oldest first for "ts" and for every other key, the
    empty one of a zero [Query] included. *)
Theorem List_page_order s q page total err :
  List s q = Ok (page, total, err) →
  if String.eqb (qSort q) "-ts" then newest_first page else oldest_first page.
Proof.
  intros Hlist.
  destruct (List_page_sound s q page total err Hlist) as (_ & Hsub & _).
  destruct (String.eqb_spec (qSort q) "-ts") as [Hs | Hs].
  - rewrite Hs in Hsub. unfold newest_first.
    eapply StronglySorted_sublist; [exact Hsub | apply sortRecords_newest].
  - unfold oldest_first.
    eapply StronglySorted_sublist; [exact Hsub | by apply sortRecords_oldest].
Qed.

End ListPages.

Lemma List_page_sound_witness :
  let q := mkQuery (Some "ollama") None None None None None None 0 50 "-ts" in
  List example_store q = Ok ([recB], 1, None)
  ∧ matchesQuery recB q = true.
Proof.
  intros q.
  assert (List example_store q = Ok ([recB], 1, None)) as Hlist
    by (vm_compute; reflexivity).
  split; [exact Hlist |].
  destruct (List_page_sound example_store q [recB] 1 None Hlist) as (Hin & _).
  exact (proj1 (Hin recB (list_elem_of_here recB []))).
Defined.

Lemma List_page_order_witness :
  let q := mkQuery None None None None None None None 0 0 "" in
  List example_store q = Ok ([recA; recB], 2, None)
  ∧ oldest_first [recA; recB].
Proof.
  intros q.
  assert (List example_store q = Ok ([recA; recB], 2, None)) as Hlist
    by (vm_compute; reflexivity).
  split; [exact Hlist |].
  exact (List_page_order example_store q [recA; recB] 2 None Hlist).
Defined.

(** ** [List]: when it returns and when it panics *)

Section ListOutcome.
Context `{GoLib}.
Context {C E : Type}.
Implicit Types (s : Store C E) (q : Query).

(** X8.  With a non-negative offset, and a limit that is not positive or does
    not overflow when added to the offset, [List] returns the matches from
    [offset] on, all of them when the limit is not positive and at most
    [limit] of them otherwise; an offset at or beyond the number of
    matches gives the empty page. *)
Theorem List_paging s q :
  0 <= qOffset q →
  qLimit q <= 0 ∨ qOffset q + qLimit q < 2 ^ 63 →
  let sorted := sortRecords (filterRecords s q) (qSort q) in
  let total := count_matching s q in
  ∃ page,
    List s q = Ok (page, total, None)
    ∧ page = (if qLimit q <=? 0 then drop (Z.to_nat (qOffset q)) sorted
              else take (Z.to_nat (qLimit q)) (drop (Z.to_nat (qOffset q)) sorted))
    ∧ Z.of_nat (length page)
      = (if qLimit q <=? 0 then Z.max 0 (total - qOffset q)
         else Z.min (qLimit q) (Z.max 0 (total - qOffset q)))
    ∧ (total <= qOffset q → page = []).
Proof.
  intros Hoff Hlim sorted total.
  pose proof (sorted_matches_length s q) as Hlen. fold sorted total in Hlen.
  eexists. split; [by apply List_in_range |]. split; [done |]. fold sorted.
  split.
  - destruct (Z.leb_spec (qLimit q) 0).
    + rewrite length_drop. lia.
    + rewrite length_take, length_drop. lia.
  - intros Hbeyond. rewrite (drop_ge sorted) by lia.
    rewrite take_nil. by destruct (qLimit q <=? 0).
Qed.

(** X9.  For a query whose offset and limit are Go [int]s, [List] panics in two
    cases only: the offset is negative; or the limit is positive and
    adding it to the smaller of the offset and the number of matches
    overflows. *)
Theorem List_panics_iff s q :
  - 2 ^ 63 <= qOffset q < 2 ^ 63 →
  - 2 ^ 63 <= qLimit q < 2 ^ 63 →
  List s q = Panic
  ↔ qOffset q < 0
    ∨ (0 < qLimit q ∧ 2 ^ 63 <= Z.min (qOffset q) (count_matching s q) + qLimit q).
Proof.
  intros Hoff Hlim. split.
  - intros Hpanic.
    destruct (Z.lt_ge_cases (qOffset q) 0) as [| Hpos]; [by left |]. right.
    destruct (Z.le_gt_cases (qLimit q) 0) as [Hnolimit | Hlimit].
    { destruct (List_paging s q Hpos (or_introl Hnolimit)) as (page & Hlist & _).
      congruence. }
    split; [done |].
    destruct (Z.lt_ge_cases (Z.min (qOffset q) (count_matching s q) + qLimit q)
                (2 ^ 63)) as [Hfits | Hover]; [| done].
    exfalso. revert Hpanic. unfold List. cbv zeta.
    rewrite sorted_matches_length.
    set (total := count_matching s q) in *.
    assert (0 <= total) as Htotal by (unfold total, count_matching; lia).
    set (start := if total <? qOffset q then total else qOffset q).
    assert (start = Z.min (qOffset q) total) as Hstart.
    { unfold start. destruct (Z.ltb_spec total (qOffset q)); lia. }
    rewrite (wrap64_small (start + qLimit q)) by lia.
    unfold slice_copy. rewrite sorted_matches_length. fold total.
    destruct (Z.leb_spec (qLimit q) 0) as [| _]; [lia |]. cbn [orb].
    destruct (Z.ltb_spec total (start + qLimit q)).
    + replace ((start <? 0) || (total <? start) || (total <? total)) with false;
        [done |].
      symmetry. rewrite !orb_false_iff, !Z.ltb_ge. lia.
    + replace ((start <? 0) || (start + qLimit q <? start)
               || (total <? start + qLimit q)) with false; [done |].
      symmetry. rewrite !orb_false_iff, !Z.ltb_ge. lia.
  - intros [Hneg | [Hlimit Hover]]; [by apply List_negative_offset |].
    destruct (Z.lt_ge_cases (qOffset q) 0) as [| Hpos];
      [by apply List_negative_offset |].
    unfold List. cbv zeta. rewrite sorted_matches_length.
    set (total := count_matching s q) in *.
    assert (0 <= total) as Htotal by (unfold total, count_matching; lia).
    set (start := if total <? qOffset q then total else qOffset q).
    assert (start = Z.min (qOffset q) total) as Hstart.
    { unfold start. destruct (Z.ltb_spec total (qOffset q)); lia. }
    rewrite (wrap64_overflow (start + qLimit q)) by lia.
    unfold slice_copy.
    destruct (Z.leb_spec (qLimit q) 0) as [| _]; [lia |]. cbn [orb].
    destruct (Z.ltb_spec total (start + qLimit q - 2 ^ 64)); [lia |].
    replace (start + qLimit q - 2 ^ 64 <? start) with true
      by (symmetry; apply Z.ltb_lt; lia).
    by rewrite orb_true_r.
Qed.

End ListOutcome.

Lemma List_paging_witness :
  ∃ page,
    List example_store (mkQuery None None None None None None None 5 10 "-ts")
    = Ok (page, 2, None)
    ∧ page = [].
Proof.
  destruct (List_paging example_store
              (mkQuery None None None None None None None 5 10 "-ts"))
    as (page & Hlist & _ & _ & Hempty).
  - cbn. lia.
  - right. cbn. lia.
  - exists page. split; [exact Hlist |]. apply Hempty. vm_compute. discriminate.
Defined.

Lemma List_panics_iff_witness :
  List example_store
    (mkQuery None None None None None None None 1 (2 ^ 63 - 1) "-ts")
  = Panic.
Proof.
  apply List_panics_iff.
  - cbn. lia.
  - cbn. lia.
  - right. split; [cbn; lia |]. vm_compute. discriminate.
Defined.

(** ** [ExportNDJSON] on a page *)

Lemma count_byte_app (c : ascii) (a b : string) :
  count_byte c (a +:+ b) = (count_byte c a + count_byte c b)%nat.
Proof.
  induction a as [| x a IH]; [done |].
  rewrite str_app_cons. cbn [count_byte]. rewrite IH. lia.
Qed.

Lemma Contains_byte_false (c : ascii) (s : string) :
  Contains s (String c EmptyString) = false → count_byte c s = 0%nat.
Proof.
  induction s as [| x s IH]; [done |].
  cbn [Contains String.prefix count_byte].
  destruct (ascii_dec c x) as [<- | Hne].
  - by destruct s.
  - cbn [orb]. intros Hs. rewrite (IH Hs).
    destruct (Ascii.eqb_spec x c); [congruence | done].
Qed.

Section ExportPage.
Context `{GoLib}.

Lemma encodeRecords_count (l : list Record) (buf content : string) :
  encodeRecords l buf = inl content →
  count_byte LF content = (count_byte LF buf + length l)%nat.
Proof.
  revert buf. induction l as [| r l IH]; intros buf; cbn [encodeRecords].
  - intros [= <-]. cbn. lia.
  - destruct (json_Marshal r) as [js |] eqn:Hjs; [| done].
    intros Henc. rewrite (IH _ Henc), !count_byte_app.
    rewrite (Contains_byte_false LF js) by (by eapply json_Marshal_line).
    cbn. lia.
Qed.

Lemma encodeRecords_error (l : list Record) (buf : string) :
  (∃ err, encodeRecords l buf = inr err) ↔ ∃ r, r ∈ l ∧ json_Marshal r = None.
Proof.
  revert buf. induction l as [| r l IH]; intros buf; cbn [encodeRecords].
  - split; [by intros [err ?] | intros (r & Hr & _); by apply elem_of_nil in Hr].
  - destruct (json_Marshal r) as [js |] eqn:Hjs.
    + rewrite IH. split.
      * intros (r' & Hin & Hnone). exists r'. split; [by right | done].
      * intros (r' & Hin & Hnone). apply elem_of_cons in Hin as [-> | Hin];
          [congruence | by exists r'].
    + split; [intros _; exists r; split; [by left | done] | by eexists].
Qed.

(** X10.  [ExportNDJSON] encodes the page that [List] returns for the same
    query, paging included.  It is all or nothing: when the encoder fails
    on a record of the page the result is the error, without the lines
    encoded before; otherwise the content has as many line feeds as the
    page has records. *)
Theorem ExportNDJSON_page (s : Store (list string) (option string)) (q : Query)
    (page : list Record) (total : Z) :
  List s q = Ok (page, total, None) →
  ExportNDJSON s q = Ok (encodeRecords page "")
  ∧ ((∃ err, ExportNDJSON s q = Ok (inr err))
     ↔ ∃ r, r ∈ page ∧ json_Marshal r = None)
  ∧ (∀ content, ExportNDJSON s q = Ok (inl content) →
       count_byte LF content = length page).
Proof.
  intros Hlist. unfold ExportNDJSON. rewrite Hlist.
  split; [done |]. split.
  - rewrite <- (encodeRecords_error page ""). split.
    + intros [err [= Herr]]. by exists err.
    + intros [err Herr]. exists err. by rewrite Herr.
  - intros content [= Hcontent]. by rewrite (encodeRecords_count _ _ _ Hcontent).
Qed.

(** A panic of [List] is a panic of [ExportNDJSON]. *)
Lemma ExportNDJSON_panics (s : Store (list string) (option string)) (q : Query) :
  List s q = Panic → ExportNDJSON s q = Panic.
Proof. intros Hlist. unfold ExportNDJSON. by rewrite Hlist. Qed.

End ExportPage.

Lemma ExportNDJSON_page_witness :
  let q := mkQuery None None None None None None None 1 1 "-ts" in
  ExportNDJSON example_store q = Ok (inl ("{stream:false}" +:+ nl))
  ∧ count_byte LF ("{stream:false}" +:+ nl) = 1%nat.
Proof.
  intros q.
  destruct (ExportNDJSON_page example_store q [recA] 2) as (Hexp & _ & Hcount).
  - vm_compute. reflexivity.
  - split; [exact Hexp |]. exact (Hcount _ Hexp).
Defined.

(** ** [parseQuery] *)

Lemma Atoi_range (s : string) (v : Z) : Atoi s = Some v → - 2 ^ 63 <= v < 2 ^ 63.
Proof.
  unfold Atoi.
  destruct (match s with
            | String "-"%char r => (true, r)
            | String "+"%char r => (false, r)
            | _ => (false, s)
            end) as [neg ds].
  destruct ds as [| c ds]; [done |].
  destruct (parse_digits 0 (String c ds)) as [d |]; [| done].
  destruct ((- 2 ^ 63 <=? (if neg then - d else d))
            && ((if neg then - d else d) <? 2 ^ 63)) eqn:Hrange; [| done].
  intros [= <-]. apply andb_true_iff in Hrange as [Hlo Hhi].
  apply Z.leb_le in Hlo. apply Z.ltb_lt in Hhi. lia.
Qed.

Lemma Atoi_empty : Atoi "" = None.
Proof. reflexivity. Qed.

Section ParseQuery.
Context `{GoLib}.

(** [parseQuery], parameter by parameter: it accepts when every parameter
    is well formed, and otherwise reports the first malformed one in the
    order status, from, to, offset, limit, sort. *)
Lemma parseQuery_params (params : string → string) :
  parseQuery params
  = match status_param params with
    | None => inr "invalid status parameter"
    | Some st =>
    match time_param params "from" with
    | None => inr "invalid from parameter"
    | Some from =>
    match time_param params "to" with
    | None => inr "invalid to parameter"
    | Some to =>
    match offset_param params with
    | None => inr "invalid offset parameter"
    | Some offset =>
    match limit_param params with
    | None => inr "invalid limit parameter"
    | Some limit =>
    match sort_param params with
    | None => inr "invalid sort parameter: must be 'ts' or '-ts'"
    | Some sort =>
        inl (mkQuery (text_param params "provider") (text_param params "modelLike")
               (text_param params "urlLike") st from to (text_param params "q")
               offset limit sort)
    end end end end end end.
Proof.
  unfold parseQuery, status_param, time_param, offset_param, limit_param,
    sort_param, text_param.
  destruct (String.eqb (params "provider") ""),
    (String.eqb (params "modelLike") ""), (String.eqb (params "urlLike") "");
    cbv zeta; cbn [qProvider qModelLike qURLLike qStatusEq qFrom qTo qTextSearch
                   qOffset qLimit qSort];
    (destruct (if String.eqb (params "status") "" then _ else _); [| done]);
    (destruct (if String.eqb (params "from") "" then _ else _); [| done]);
    (destruct (if String.eqb (params "to") "" then _ else _); [| done]);
    (destruct (if String.eqb (params "offset") "" then _ else _); [| done]);
    (destruct (if String.eqb (params "limit") "" then _ else _); [| done]);
    destruct (String.eqb (params "sort") ""); try done;
    by destruct (String.eqb (params "sort") "ts" || String.eqb (params "sort") "-ts").
Qed.

End ParseQuery.

Lemma status_param_Some (params : string → string) (st : option Z) :
  status_param params = Some st → st = Atoi (params "status").
Proof.
  unfold status_param. destruct (String.eqb_spec (params "status") "") as [-> | _].
  - by intros [= <-].
  - destruct (Atoi _); [by intros [= <-] | done].
Qed.

Lemma offset_param_Some (params : string → string) (offset : Z) :
  offset_param params = Some offset →
  offset = default 0 (Atoi (params "offset")) ∧ - 2 ^ 63 <= offset < 2 ^ 63.
Proof.
  unfold offset_param. destruct (String.eqb_spec (params "offset") "") as [-> | _].
  - intros [= <-]. cbn. lia.
  - intros Hoff. rewrite Hoff. split; [done | by eapply Atoi_range].
Qed.

Lemma limit_param_Some (params : string → string) (limit : Z) :
  limit_param params = Some limit →
  limit = match Atoi (params "limit") with
          | Some v => if 0 <? v then v else 50
          | None => 50
          end
  ∧ 0 < limit < 2 ^ 63.
Proof.
  unfold limit_param. destruct (String.eqb_spec (params "limit") "") as [-> | _].
  - intros [= <-]. cbn. lia.
  - destruct (Atoi (params "limit")) as [v |] eqn:Hv; [| done].
    intros [= <-]. apply Atoi_range in Hv.
    destruct (Z.ltb_spec 0 v); lia.
Qed.

Lemma sort_param_Some (params : string → string) (sort : string) :
  sort_param params = Some sort →
  sort = (if String.eqb (params "sort") "" then "-ts" else params "sort")
  ∧ (sort = "ts" ∨ sort = "-ts").
Proof.
  unfold sort_param. destruct (String.eqb_spec (params "sort") "") as [| _].
  - intros [= <-]. by split; [| right].
  - destruct (String.eqb_spec (params "sort") "ts") as [-> | _]; cbn [orb].
    { intros [= <-]. by split; [| left]. }
    destruct (String.eqb_spec (params "sort") "-ts") as [-> | _]; [| done].
    intros [= <-]. by split; [| right].
Qed.

(** X11.  Every query that [parseQuery] accepts has a positive limit, an offset
    and a limit within Go's [int], and the sort key "ts" or "-ts"; its
    fields are the parameters: an empty parameter leaves the filter out,
    the offset defaults to 0 and the sort key to "-ts", and the limit is 50
    when the parameter is missing, zero or negative. *)
Theorem parseQuery_accepted `{GoLib} (params : string → string) (q : Query) :
  parseQuery params = inl q →
  0 < qLimit q < 2 ^ 63
  ∧ - 2 ^ 63 <= qOffset q < 2 ^ 63
  ∧ (qSort q = "ts" ∨ qSort q = "-ts")
  ∧ qProvider q = text_param params "provider"
  ∧ qModelLike q = text_param params "modelLike"
  ∧ qURLLike q = text_param params "urlLike"
  ∧ qTextSearch q = text_param params "q"
  ∧ qStatusEq q = Atoi (params "status")
  ∧ qOffset q = default 0 (Atoi (params "offset"))
  ∧ qLimit q = match Atoi (params "limit") with
               | Some v => if 0 <? v then v else 50
               | None => 50
               end
  ∧ qSort q = (if String.eqb (params "sort") "" then "-ts" else params "sort").
Proof.
  rewrite parseQuery_params.
  destruct (status_param params) as [st |] eqn:Hst; [| done].
  destruct (time_param params "from") as [from |]; [| done].
  destruct (time_param params "to") as [to |]; [| done].
  destruct (offset_param params) as [offset |] eqn:Hoff; [| done].
  destruct (limit_param params) as [limit |] eqn:Hlim; [| done].
  destruct (sort_param params) as [sort |] eqn:Hsort; [| done].
  intros [= <-]. cbn [qProvider qModelLike qURLLike qStatusEq qTextSearch qOffset
                      qLimit qSort].
  apply status_param_Some in Hst. apply offset_param_Some in Hoff as [Hoff ?].
  apply limit_param_Some in Hlim as [Hlim ?].
  apply sort_param_Some in Hsort as [Hsort ?].
  repeat split; try done; lia.
Qed.

Ltac no_malformed :=
  intros [[? ?] | [[? ?] | [[? ?] | [[? ?] | [[? ?] | (? & ? & ?)]]]]];
  congruence.

(** X12.  [parseQuery] rejects a query string exactly when one of its parameters
    is malformed: a status, offset or limit that is not empty and not a
    decimal [int], a from or to that is not empty and not an RFC 3339 time,
    or a sort key other than "ts", "-ts" and the empty string. *)
Theorem parseQuery_rejects_iff `{GoLib} (params : string → string) :
  (∃ err, parseQuery params = inr err)
  ↔ (params "status" ≠ "" ∧ Atoi (params "status") = None)
    ∨ (params "from" ≠ "" ∧ time_Parse_RFC3339 (params "from") = None)
    ∨ (params "to" ≠ "" ∧ time_Parse_RFC3339 (params "to") = None)
    ∨ (params "offset" ≠ "" ∧ Atoi (params "offset") = None)
    ∨ (params "limit" ≠ "" ∧ Atoi (params "limit") = None)
    ∨ (params "sort" ≠ "" ∧ params "sort" ≠ "ts" ∧ params "sort" ≠ "-ts").
Proof.
  rewrite parseQuery_params.
  unfold status_param, time_param, offset_param, limit_param, sort_param.
  destruct (String.eqb_spec (params "status") "") as [Hst | Hst];
    [| destruct (Atoi (params "status")) eqn:Hsta; cbn [option_map];
       [| split; [intros _; by left | by eexists]]].
  all: destruct (String.eqb_spec (params "from") "") as [Hfrom | Hfrom];
    [| destruct (time_Parse_RFC3339 (params "from")) eqn:Hfroma; cbn [option_map];
       [| split; [intros _; right; by left | by eexists]]].
  all: destruct (String.eqb_spec (params "to") "") as [Hto | Hto];
    [| destruct (time_Parse_RFC3339 (params "to")) eqn:Htoa; cbn [option_map];
       [| split; [intros _; do 2 right; by left | by eexists]]].
  all: destruct (String.eqb_spec (params "offset") "") as [Hoff | Hoff];
    [| destruct (Atoi (params "offset")) eqn:Hoffa;
       [| split; [intros _; do 3 right; by left | by eexists]]].
  all: destruct (String.eqb_spec (params "limit") "") as [Hlim | Hlim];
    [| destruct (Atoi (params "limit")) eqn:Hlima; cbn [option_map];
       [| split; [intros _; do 4 right; by left | by eexists]]].
  all: destruct (String.eqb_spec (params "sort") "") as [Hsort | Hsort];
    [split; [by intros [err ?] | no_malformed] |].
  all: destruct (String.eqb_spec (params "sort") "ts") as [Hts | Hts]; cbn [orb];
    [split; [by intros [err ?] | no_malformed] |].
  all: destruct (String.eqb_spec (params "sort") "-ts") as [Hmts | Hmts];
    [split; [by intros [err ?] | no_malformed] |].
  all: split; [intros _; do 5 right; done | by eexists].
Qed.

Lemma parseQuery_accepted_witness :
  ∃ q, parseQuery (λ k, if String.eqb k "limit" then "-3" else "") = inl q
       ∧ qLimit q = 50.
Proof.
  exists (mkQuery None None None None None None None 0 50 "-ts").
  split; [reflexivity |].
  destruct (parseQuery_accepted (λ k, if String.eqb k "limit" then "-3" else "")
              (mkQuery None None None None None None None 0 50 "-ts") eq_refl)
    as (_ & _ & _ & _ & _ & _ & _ & _ & _ & Hlimit & _).
  exact Hlimit.
Defined.

(** ** Splitting paths *)

Lemma rev_app_app (s acc : string) :
  String.rev_app s acc = String.rev_app s "" +:+ acc.
Proof.
  revert acc. induction s as [| c s IH]; intros acc; [done |].
  cbn [String.rev_app]. rewrite (IH (String c acc)), (IH (String c "")).
  by rewrite str_app_assoc.
Qed.

Lemma rev_cons (c : ascii) (s : string) :
  String.rev (String c s) = String.rev s +:+ String c "".
Proof. unfold String.rev. cbn [String.rev_app]. apply rev_app_app. Qed.

Lemma Split_go_segments (cur s : string) (sep : ascii) :
  Split_go cur s sep
  = (String.rev cur +:+ first_segment s sep)
    :: match after_segment s sep with
       | Some rest => Split_go "" rest sep
       | None => []
       end.
Proof.
  revert cur. induction s as [| c s IH]; intros cur;
    cbn [Split_go first_segment after_segment].
  - by rewrite str_app_nil_r.
  - destruct (Ascii.eqb c sep); [by rewrite str_app_nil_r |].
    rewrite IH, rev_cons, str_app_assoc. reflexivity.
Qed.

(** [Split] gives the bytes before the first separator, then the split of
    what follows it. *)
Lemma Split_segments (s : string) (sep : ascii) :
  Split s sep
  = first_segment s sep
    :: match after_segment s sep with
       | Some rest => Split rest sep
       | None => []
       end.
Proof. unfold Split. by rewrite Split_go_segments. Qed.

Lemma first_segment_no_sep (s : string) (sep : ascii) :
  Contains (first_segment s sep) (String sep "") = false.
Proof.
  induction s as [| c s IH]; cbn [first_segment]; [done |].
  destruct (Ascii.eqb_spec c sep) as [| Hne]; [done |].
  cbn [Contains String.prefix]. rewrite IH.
  destruct (ascii_dec sep c); [congruence | done].
Qed.

Lemma segment_whole (s : string) (sep : ascii) :
  Contains s (String sep "") = false →
  first_segment s sep = s ∧ after_segment s sep = None.
Proof.
  induction s as [| c s IH]; [done |].
  cbn [Contains String.prefix first_segment after_segment].
  destruct (ascii_dec sep c) as [<- | Hne].
  - by destruct s.
  - cbn [orb]. intros Hs. destruct (IH Hs) as [-> ->].
    destruct (Ascii.eqb_spec c sep); [congruence | done].
Qed.

Lemma segment_app (s rest : string) (sep : ascii) :
  Contains s (String sep "") = false →
  first_segment (s +:+ String sep rest) sep = s
  ∧ after_segment (s +:+ String sep rest) sep = Some rest.
Proof.
  induction s as [| c s IH].
  - intros _. rewrite str_app_nil_l. cbn. by rewrite Ascii.eqb_refl.
  - cbn [Contains String.prefix]. rewrite str_app_cons.
    cbn [first_segment after_segment].
    destruct (ascii_dec sep c) as [<- | Hne].
    + by destruct s.
    + cbn [orb]. intros Hs. destruct (IH Hs) as [-> ->].
      destruct (Ascii.eqb_spec c sep); [congruence | done].
Qed.

Lemma prefix_app (a b : string) : String.prefix a (a +:+ b) = true.
Proof.
  induction a as [| c a IH].
  - rewrite str_app_nil_l. by destruct b.
  - rewrite str_app_cons. cbn [String.prefix].
    destruct (ascii_dec c c); [exact IH | done].
Qed.

Lemma str_drop_app (a b : string) : str_drop (String.length a) (a +:+ b) = b.
Proof.
  induction a as [| c a IH]; [by destruct b |].
  rewrite str_app_cons. exact IH.
Qed.

Lemma TrimPrefix_app (a b : string) : TrimPrefix (a +:+ b) a = b.
Proof. unfold TrimPrefix, HasPrefix. by rewrite prefix_app, str_drop_app. Qed.

(** ** The handlers by id *)

Section ApiByIdFacts.
Context `{GoLib}.
Implicit Types (s : Store (list string) (option string)).

(** X14.  The routing of [handleRequestByID], for an id that is not empty and
    has no slash: [GET .../id] is the record, [GET .../id/chunks] the
    replay, [GET .../id/] followed by anything else the record again (the
    further segments are ignored), [DELETE .../id] and
    [DELETE .../id/...] the deletion, and every other method 405; no
    request but a [DELETE] changes the store. *)
Theorem handleRequestByID_routes s (isFlusher : bool) (id rest method : string) :
  id ≠ "" →
  Contains id "/" = false →
  handleRequestByID s isFlusher "GET" ("/api/requests/" +:+ id)
  = (s, handleGetRequest s id)
  ∧ handleRequestByID s isFlusher "GET" ("/api/requests/" +:+ id +:+ "/chunks")
    = (s, handleRequestChunks s isFlusher id)
  ∧ (first_segment rest "/" ≠ "chunks" →
     handleRequestByID s isFlusher "GET" ("/api/requests/" +:+ id +:+ "/" +:+ rest)
     = (s, handleGetRequest s id))
  ∧ handleRequestByID s isFlusher "DELETE" ("/api/requests/" +:+ id)
    = handleDeleteRequest s id
  ∧ handleRequestByID s isFlusher "DELETE" ("/api/requests/" +:+ id +:+ "/" +:+ rest)
    = handleDeleteRequest s id
  ∧ (method ≠ "GET" → method ≠ "DELETE" →
     handleRequestByID s isFlusher method ("/api/requests/" +:+ id)
     = (s, http_Error ∅ "Method not allowed" StatusMethodNotAllowed)).
Proof.
  intros Hid Hslash.
  assert (String.eqb id "" = false) as Hne by (by apply String.eqb_neq).
  destruct (segment_whole id "/" Hslash) as [Hfirst Hafter].
  assert (∀ tail, Split (id +:+ String "/" tail) "/"
                  = id :: Split tail "/") as Hsplit.
  { intros tail. rewrite Split_segments.
    by destruct (segment_app id tail "/" Hslash) as [-> ->]. }
  assert (Split id "/" = [id]) as Hsplit0.
  { by rewrite Split_segments, Hfirst, Hafter. }
  unfold handleRequestByID. rewrite !TrimPrefix_app. cbv zeta.
  change ("/" +:+ rest) with (String "/" rest).
  change ("/chunks") with (String "/" "chunks").
  rewrite !Hsplit, Hsplit0, Hne.
  split; [done |]. split; [done |]. split.
  { intros Hrest. rewrite Split_segments. cbn [String.eqb Ascii.eqb Bool.eqb].
    by destruct (String.eqb_spec (first_segment rest "/") "chunks"). }
  split; [done |]. split; [done |].
  intros Hget Hdel.
  destruct (String.eqb_spec method "GET"); [done |].
  by destruct (String.eqb_spec method "DELETE").
Qed.

(** A path without an id is answered with 400 "Missing request ID",
    whatever the method. *)
Lemma handleRequestByID_missing_id s (isFlusher : bool) (method rest : string) :
  handleRequestByID s isFlusher method ("/api/requests/" +:+ "/" +:+ rest)
  = (s, http_Error ∅ "Missing request ID" StatusBadRequest)
  ∧ handleRequestByID s isFlusher method "/api/requests/"
    = (s, http_Error ∅ "Missing request ID" StatusBadRequest).
Proof.
  unfold handleRequestByID. rewrite TrimPrefix_app. cbv zeta.
  change ("/" +:+ rest) with (String "/" rest).
  rewrite Split_segments. done.
Qed.

(** X15.  [DELETE] answers 204 when the record was there and 404 "Record not
    found" when it was not; either way a [GET] of the same id afterwards
    answers 404 "Record not found", and the other records stay. *)
Theorem handleDeleteRequest_then_get s (id : string) :
  let '(s', reply) := handleDeleteRequest s id in
  reply = (match records s !! id with
           | Some _ => mkReply StatusNoContent ∅ []
           | None => http_Error ∅ "Record not found" StatusNotFound
           end)
  ∧ handleGetRequest s' id = http_Error ∅ "Record not found" StatusNotFound
  ∧ ∀ id', id' ≠ id → handleGetRequest s' id' = handleGetRequest s id'.
Proof.
  unfold handleDeleteRequest.
  destruct (Delete_then_Get s id) as (Hgone & Hothers & Hcase).
  destruct (Delete s id) as [s' [err |]] eqn:Hdel; cbn [fst snd] in *.
  - destruct (records s !! id) as [old |]; [by destruct Hcase |].
    injection Hcase as -> ->. rewrite not_found_error.
    split; [done |]. split.
    + unfold handleGetRequest. by rewrite Hgone, not_found_error.
    + done.
  - destruct (records s !! id) as [old |]; [| done].
    split; [done |]. split.
    + unfold handleGetRequest. by rewrite Hgone, not_found_error.
    + intros id' Hne. unfold handleGetRequest. by rewrite Hothers.
Qed.

(** X16.  After a record is saved, [GET] of its id answers 200 with the
    record's JSON and a line feed. *)
Theorem handleGetRequest_after_Save s (r : Record) (js : string) :
  json_Marshal r = Some js →
  handleGetRequest (fst (Save s r)) (ID r)
  = mkReply StatusOK (<["Content-Type" := "application/json"]> ∅)
      [Write (js +:+ nl)].
Proof.
  intros Hjs. unfold handleGetRequest.
  destruct (Save_then_Get s r (ID r)) as [_ Hget].
  rewrite decide_True in Hget by done. by rewrite Hget, Hjs.
Qed.

End ApiByIdFacts.

Lemma handleRequestByID_routes_witness :
  handleRequestByID example_store true "GET" "/api/requests/B/chunks"
  = (example_store, handleRequestChunks example_store true "B")
  ∧ handleRequestByID example_store true "GET" "/api/requests/B/raw/x"
    = (example_store, handleGetRequest example_store "B").
Proof.
  destruct (handleRequestByID_routes example_store true "B" "raw/x" "GET")
    as (_ & Hchunks & Hextra & _); [done | reflexivity |].
  split; [exact Hchunks |]. apply Hextra. vm_compute. discriminate.
Defined.

Lemma handleGetRequest_after_Save_witness :
  handleGetRequest example_store "B"
  = mkReply 200 (<["Content-Type" := "application/json"]> ∅)
      [Write ("{stream:true}" +:+ nl)].
Proof.
  exact (handleGetRequest_after_Save (fst (Save New recA)) recB "{stream:true}"
           eq_refl).
Defined.

(** ** The list handler *)

(** X13.  [handleRequests]: another method than [GET] is answered with 405 and a
    rejected query string with 400; for an accepted one the handler never
    answers 500: it panics when the offset is negative or adding the limit
    to the smaller of the offset and the number of matches overflows, and
    otherwise hands to the encoder the page, the number of matches, and
    the offset and the effective limit of the query. *)
Theorem handleRequests_outcomes `{GoLib} (s : Store (list string) (option string))
    (method : string) (params : string → string) :
  (method ≠ "GET" →
   handleRequests s method params
   = Ok (ListError (http_Error ∅ "Method not allowed" StatusMethodNotAllowed)))
  ∧ (∀ err, parseQuery params = inr err →
       handleRequests s "GET" params
       = Ok (ListError (http_Error ∅ ("Invalid query parameters: " +:+ err)
                          StatusBadRequest)))
  ∧ (∀ q, parseQuery params = inl q →
       let total := count_matching s q in
       let sorted := sortRecords (filterRecords s q) (qSort q) in
       if (qOffset q <? 0) || (2 ^ 63 <=? Z.min (qOffset q) total + qLimit q)
       then handleRequests s "GET" params = Panic
       else ∃ page,
           handleRequests s "GET" params
           = Ok (ListPage page total (qOffset q) (qLimit q))
           ∧ page `sublist_of` sorted
           ∧ Z.of_nat (length page)
             = Z.min (qLimit q) (Z.max 0 (total - qOffset q))).
Proof.
  split; [| split].
  - intros Hm. unfold handleRequests.
    by destruct (String.eqb_spec method "GET").
  - intros err Herr. unfold handleRequests. cbn [String.eqb Ascii.eqb Bool.eqb negb].
    by rewrite Herr.
  - intros q Hq total sorted.
    destruct (parseQuery_accepted params q Hq) as (Hlim & Hoff & _).
    unfold handleRequests. cbn [String.eqb Ascii.eqb Bool.eqb negb]. rewrite Hq.
    pose proof (List_panics_iff s q Hoff ltac:(lia)) as Hpanic. fold total in Hpanic.
    destruct ((qOffset q <? 0) || (2 ^ 63 <=? Z.min (qOffset q) total + qLimit q))
      eqn:Hcase.
    + assert (List s q = Panic) as ->; [| done].
      apply Hpanic. apply orb_true_iff in Hcase as [Hneg | Hover].
      * left. by apply Z.ltb_lt.
      * right. apply Z.leb_le in Hover. lia.
    + apply orb_false_iff in Hcase as [Hneg Hover].
      apply Z.ltb_ge in Hneg. apply Z.leb_gt in Hover.
      assert (List s q ≠ Panic) as Hreturns.
      { intros Hlist. apply Hpanic in Hlist. lia. }
      clear Hpanic.
      destruct (List s q) as [[[page total'] err] |] eqn:Hlist; [| done].
      destruct (List_total s q page total' err Hlist) as [-> ->].
      destruct (List_page_sound s q page _ None Hlist) as (_ & Hsub & _ & _).
      exists page. split; [done |]. split; [done |].
      revert Hlist. unfold List. cbv zeta. fold sorted.
      assert (Z.of_nat (length sorted) = total) as Hlen
        by apply sorted_matches_length.
      rewrite Hlen.
      assert (0 <= total) as Htotal by (unfold total, count_matching; lia).
      set (start := if total <? qOffset q then total else qOffset q).
      assert (start = Z.min (qOffset q) total) as Hstart.
      { unfold start. destruct (Z.ltb_spec total (qOffset q)); lia. }
      rewrite (wrap64_small (start + qLimit q)) by lia.
      destruct (Z.leb_spec (qLimit q) 0) as [| _]; [lia |]. cbn [orb].
      destruct (slice_copy sorted start _) as [result |] eqn:Hslice; [| done].
      intros [= <-]. apply slice_copy_Ok in Hslice as (Hs & He & ->).
      rewrite length_take, length_drop.
      destruct (Z.ltb_spec total (start + qLimit q)); lia.
Qed.

Lemma handleRequests_outcomes_witness :
  handleRequests example_store "GET" offset_minus_one = Panic
  ∧ handleRequests example_store "GET" no_params
    = Ok (ListPage [recB; recA] 2 0 50).
Proof.
  split.
  - destruct (handleRequests_outcomes example_store "GET" offset_minus_one)
      as (_ & _ & Hq).
    exact (Hq (mkQuery None None None None None None None (-1) 50 "-ts") eq_refl).
  - vm_compute. reflexivity.
Defined.

(** ** Mounts and routes *)

(** X17.  [extractMount] is a slash and the first segment of the path: the
    result has no second slash.  For a path [/seg] or [/seg/rest] it is
    [/seg]. *)
Theorem extractMount_first_segment (path : string) :
  extractMount path = "/" +:+ first_segment (TrimPrefix path "/") "/"
  ∧ Contains (first_segment (TrimPrefix path "/") "/") "/" = false
  ∧ ∀ seg rest,
      path = "/" +:+ seg ∨ path = "/" +:+ seg +:+ "/" +:+ rest →
      Contains seg "/" = false →
      extractMount path = "/" +:+ seg.
Proof.
  assert (extractMount path = "/" +:+ first_segment (TrimPrefix path "/") "/") as Hm.
  { unfold extractMount. by rewrite Split_segments. }
  split; [done |]. split; [apply first_segment_no_sep |].
  intros seg rest Hpath Hseg. rewrite Hm. f_equal.
  destruct Hpath as [-> | ->]; rewrite TrimPrefix_app.
  - by apply segment_whole.
  - change ("/" +:+ rest) with (String "/" rest). by apply segment_app.
Qed.

Lemma extractMount_first_segment_witness :
  extractMount "/openai/chat/completions" = "/openai".
Proof.
  destruct (extractMount_first_segment "/openai/chat/completions") as (_ & _ & Hseg).
  apply (Hseg "openai" "chat/completions"); [by right | reflexivity].
Defined.

Section Routes.
Context `{GoLib}.

(** X18.  [GetRouteByMount] finds a route exactly when the configuration has one
    whose mount equals the given mount, a trailing slash on either aside;
    the route it returns is such a route of the configuration, under its
    name. *)
Theorem GetRouteByMount_spec (cfg : Config) (mount : string) :
  match GetRouteByMount cfg mount with
  | Some (name, route) =>
      Routes cfg !! name = Some route
      ∧ TrimSuffix (rMount route) "/" = TrimSuffix mount "/"
  | None =>
      ∀ name route,
        Routes cfg !! name = Some route →
        TrimSuffix (rMount route) "/" ≠ TrimSuffix mount "/"
  end.
Proof.
  unfold GetRouteByMount.
  destruct (List.find _ _) as [[name route] |] eqn:Hfind.
  - apply List.find_some in Hfind as [Hin Heq].
    apply list_elem_of_In in Hin. rewrite map_range_perm in Hin.
    apply elem_of_map_to_list in Hin. split; [done |].
    by apply String.eqb_eq in Heq.
  - intros name route Hroute Heq.
    assert (In (name, route) (map_range (Routes cfg))) as Hin.
    { apply list_elem_of_In. rewrite map_range_perm.
      by apply elem_of_map_to_list. }
    pose proof (List.find_none _ _ Hfind (name, route) Hin) as Hne.
    cbn [snd] in Hne. apply String.eqb_neq in Hne. done.
Qed.

End Routes.

Lemma Contains_cons (c : ascii) (s sub : string) :
  Contains (String c s) sub = String.prefix sub (String c s) || Contains s sub.
Proof. reflexivity. Qed.

Lemma last_slash_Contains (s : string) :
  s ≠ "" →
  str_drop (String.length s - 1) s = "/" →
  Contains s "/" = true.
Proof.
  induction s as [| c s IH]; [done |]. intros _.
  cbn [String.length]. replace (S (String.length s) - 1)%nat with (String.length s) by lia.
  destruct s as [| d s'].
  - cbn [String.length str_drop]. by intros [= ->].
  - cbn [String.length str_drop]. intros Hlast.
    rewrite Contains_cons, IH; [apply orb_true_r | done |].
    cbn [String.length]. by replace (S (String.length s') - 1)%nat
      with (String.length s') by lia.
Qed.

Lemma TrimSuffix_mount (seg : string) :
  Contains seg "/" = false →
  TrimSuffix ("/" +:+ seg) "/" = if String.eqb seg "" then "" else "/" +:+ seg.
Proof.
  intros Hseg. destruct seg as [| c seg]; [done |].
  cbn [String.eqb]. unfold TrimSuffix.
  destruct (HasSuffix ("/" +:+ String c seg) "/") eqn:Hsuf; [| done].
  exfalso. unfold HasSuffix in Hsuf. apply andb_true_iff in Hsuf as [_ Hsuf].
  apply String.eqb_eq in Hsuf. rewrite str_app_cons, str_app_nil_l in Hsuf.
  cbn [String.length] in Hsuf.
  replace (S (S (String.length seg)) - 1)%nat with (S (String.length seg)) in Hsuf
    by lia.
  cbn [str_drop] in Hsuf.
  rewrite (last_slash_Contains (String c seg)) in Hseg; [done | done |].
  cbn [String.length].
  by replace (S (String.length seg) - 1)%nat with (String.length seg) by lia.
Qed.

(** X19.  The route that [ServeHTTP] looks up for a path has a mount of a single
    segment: a route whose mount has a slash inside, such as [/v1/openai],
    is never selected, whatever the path. *)
Theorem selected_mount_single_segment `{GoLib} (cfg : Config) (path name : string)
    (route : RouteConfig) :
  GetRouteByMount cfg (extractMount path) = Some (name, route) →
  Routes cfg !! name = Some route
  ∧ Contains (str_drop 1 (TrimSuffix (rMount route) "/")) "/" = false.
Proof.
  intros Hroute.
  pose proof (GetRouteByMount_spec cfg (extractMount path)) as Hspec.
  rewrite Hroute in Hspec. destruct Hspec as [Hin Hmount].
  split; [done |]. rewrite Hmount.
  destruct (extractMount_first_segment path) as (-> & Hseg & _).
  rewrite TrimSuffix_mount by done.
  destruct (String.eqb _ _); [done |]. by rewrite str_app_cons, str_app_nil_l.
Qed.

Lemma selected_mount_single_segment_witness :
  Contains (str_drop 1 (TrimSuffix "/openai" "/")) "/" = false.
Proof.
  exact (proj2 (selected_mount_single_segment cfg_1MB "/openai/chat/completions"
                  "openai" (mkRoute "/openai" "https://api.openai.com/v1")
                  route_openai)).
Defined.

(** ** The assembled record *)

Lemma onClose_request_part (c : Capture) :
  request_part (onClose c) = request_part (cap_record c)
  ∧ Status (onClose c) = Status (cap_record c)
  ∧ Stream (onClose c) = Stream (cap_record c)
  ∧ ModelHint (onClose c) = ModelHint (cap_record c).
Proof. done. Qed.

Section Assembly.
Context `{GoLib}.

Lemma extractModelHint_fields (record : Record) :
  request_part (extractModelHint record) = request_part record
  ∧ Status (extractModelHint record) = Status record
  ∧ DurationMS (extractModelHint record) = DurationMS record
  ∧ ModelHint (extractModelHint record)
    = (if String.eqb (RequestBody record) "" then ModelHint record
       else default (ModelHint record)
              (json_string_field (RequestBody record) "model")).
Proof.
  unfold extractModelHint. destruct (String.eqb _ _); [done |].
  by destruct (json_string_field _ _).
Qed.

Lemma captureRequestBody_record (cfg : Config) (w : World) (r r' : Request)
    (name : string) (route : RouteConfig) (record' : Record) :
  captureRequestBody cfg r
    (mkRecord (uuid_New w) (time_Now w) name (rqMethod r) (rqURL r)
       (rUpstream route) 0 0 "" "" false [] 0 0 "" None)
  = inl (r', record') →
  record' = request_record cfg w r name route.
Proof.
  unfold captureRequestBody, request_record.
  destruct (rqBody r) as [rd |]; [| by intros [= <- <-]].
  destruct (io_ReadAll _) as [bdy |] eqn:Hread; [| done].
  intros [= <- <-]. unfold io_ReadAll in Hread.
  destruct (rd_err _); [done |]. injection Hread as <-.
  by rewrite io_LimitReader_data.
Qed.

(** Every enqueued record, by the path that produced it. *)
Lemma ServeHTTP_enqueued_full (cfg : Config) (w : World) (r : Request) (rec : Record) :
  sv_enqueued (ServeHTTP cfg w r) = Some rec →
  ∃ (name : string) (route : RouteConfig) (fw : Forwarded),
    GetRouteByMount cfg (extractMount (rqPath r)) = Some (name, route)
    ∧ sv_forwarded (ServeHTTP cfg w r) = Some fw
    ∧ workers_has_room w = true
    ∧ sv_aborted (ServeHTTP cfg w r) = false
    ∧ let record' := request_record cfg w r name route in
      match roundTrip w fw with
      | TransportError _ =>
          rec = extractModelHint (with_DurationMS record' (time_Since_ms w))
      | Responded resp =>
          match upBody resp with
          | None =>
              rec = extractModelHint
                      (with_DurationMS (with_Status record' (upStatusCode resp))
                         (time_Since_ms w))
          | Some b =>
              up_err b = None
              ∧ rec = extractModelHint
                        (with_DurationMS
                           (onClose
                              (body_run (before_close (proxy_calls b))
                                 (mkCapture (isStreamResponse resp) (MaxBodyBytes cfg)
                                    "" [] false 0
                                    (with_Stream
                                       (with_Status record' (upStatusCode resp))
                                       (isStreamResponse resp)))))
                           (time_Since_ms w))
          end
      end.
Proof.
  unfold ServeHTTP.
  destruct (GetRouteByMount _ _) as [[name route] |]; [| done].
  destruct (url_Parse _) as [upstream |]; [| done].
  destruct (captureRequestBody _ _ _) as [[r' record'] | err] eqn:Hcap; [| done].
  apply captureRequestBody_record in Hcap as ->.
  set (fw0 := mkForwarded _ _ _ _ _). clearbody fw0.
  assert (∀ st bdy logs record,
            sv_enqueued (finishServe w st bdy logs fw0 record) = Some rec →
            workers_has_room w = true
            ∧ sv_aborted (finishServe w st bdy logs fw0 record) = false
            ∧ rec = extractModelHint (with_DurationMS record (time_Since_ms w)))
    as Hfinish.
  { intros st bdy logs record. unfold finishServe.
    destruct (workers_has_room w); [| done]. by intros [= <-]. }
  destruct (roundTrip w fw0) as [err | resp] eqn:Hrt.
  { intros Henq. destruct (Hfinish _ _ _ _ Henq) as (Hroom & Hab & ->).
    exists name, route, fw0. rewrite finishServe_forwarded, Hrt. done. }
  unfold captureResponseBody.
  destruct (upBody resp) as [b |] eqn:Hub.
  - destruct (up_err b) eqn:Herr; [done |].
    intros Henq. destruct (Hfinish _ _ _ _ Henq) as (Hroom & Hab & ->).
    exists name, route, fw0. rewrite finishServe_forwarded, Hrt, Hub.
    rewrite <- proxied_record. done.
  - intros Henq. destruct (Hfinish _ _ _ _ Henq) as (Hroom & Hab & ->).
    exists name, route, fw0. rewrite finishServe_forwarded, Hrt, Hub. done.
Qed.

(** X20.  Every enqueued record carries the id and the time taken at the start
    of the request, the name and the upstream of the route, the method and
    the URL of the request, and the measured duration; its request body is
    the first [MaxBodyBytes] bytes of the client's body and
    [SizeReqBytes] is the length of that captured prefix, not of the
    client's body; the model hint is the string at the key "model" of the
    captured prefix read as JSON, and empty when there is none. *)
Theorem enqueued_request_fields (cfg : Config) (w : World) (r : Request)
    (rec : Record) :
  sv_enqueued (ServeHTTP cfg w r) = Some rec →
  ID rec = uuid_New w
  ∧ Timestamp rec = time_Now w
  ∧ Method rec = rqMethod r
  ∧ URL rec = rqURL r
  ∧ DurationMS rec = time_Since_ms w
  ∧ Error rec = None
  ∧ (∃ name route,
       GetRouteByMount cfg (extractMount (rqPath r)) = Some (name, route)
       ∧ Provider rec = name ∧ Upstream rec = rUpstream route)
  ∧ RequestBody rec
    = match rqBody r with
      | Some rd => str_take (Z.to_nat (MaxBodyBytes cfg)) (rd_data rd)
      | None => ""
      end
  ∧ SizeReqBytes rec = len (RequestBody rec)
  ∧ ModelHint rec
    = (if String.eqb (RequestBody rec) "" then ""
       else default "" (json_string_field (RequestBody rec) "model")).
Proof.
  intros Henq.
  destruct (ServeHTTP_enqueued_full cfg w r rec Henq)
    as (name & route & fw & Hroute & _ & _ & _ & Hrec).
  cbv zeta in Hrec.
  assert (∃ x, rec = extractModelHint (with_DurationMS x (time_Since_ms w))
               ∧ request_part x = request_part (request_record cfg w r name route)
               ∧ ModelHint x = "") as (x & -> & Hpart & Hhint).
  { destruct (roundTrip w fw) as [err | resp]; [by eexists |].
    destruct (upBody resp) as [b |]; [| by eexists].
    destruct Hrec as [_ ->]. eexists. split; [done |].
    destruct (onClose_request_part
                (body_run (before_close (proxy_calls b))
                   (mkCapture (isStreamResponse resp) (MaxBodyBytes cfg) "" [] false 0
                      (with_Stream
                         (with_Status (request_record cfg w r name route)
                            (upStatusCode resp))
                         (isStreamResponse resp)))))
      as (-> & _ & _ & ->).
    destruct (reads_frame (before_close (proxy_calls b))
                (mkCapture (isStreamResponse resp) (MaxBodyBytes cfg) "" [] false 0
                   (with_Stream
                      (with_Status (request_record cfg w r name route)
                         (upStatusCode resp))
                      (isStreamResponse resp)))
                (before_close_no_close _)) as (_ & _ & _ & _ & ->).
    done. }
  destruct (extractModelHint_fields (with_DurationMS x (time_Since_ms w)))
    as (Hp & _ & Hd & Hm).
  assert (request_part (with_DurationMS x (time_Since_ms w)) = request_part x)
    as Hp' by done.
  rewrite Hp', Hpart in Hp. unfold request_part in Hp.
  injection Hp as -> -> -> -> -> -> -> -> ->.
  rewrite Hd, Hm. cbn [RequestBody ModelHint with_DurationMS DurationMS request_record].
  unfold request_part in Hpart. injection Hpart as _ _ _ _ _ _ HB _ _.
  rewrite HB, Hhint. cbn [RequestBody request_record].
  repeat split; try done. by exists name, route.
Qed.

End Assembly.

Lemma enqueued_request_fields_witness :
  ∃ rec : Record,
    sv_enqueued (ServeHTTP cfg_1MB (world_of (json_response ["{}"]))
                   (post_chat (mkReader "{}" None))) = Some rec
    ∧ ID rec = "id-1"
    ∧ SizeReqBytes rec = len (RequestBody rec).
Proof.
  destruct (post_chat_json_enqueued ["{}"]) as [[rec Henq] _].
  exists rec. split; [exact Henq |].
  destruct (enqueued_request_fields cfg_1MB (world_of (json_response ["{}"]))
              (post_chat (mkReader "{}" None)) rec Henq)
    as (Hid & _ & _ & _ & _ & _ & _ & _ & Hsize & _).
  split; [exact Hid | exact Hsize].
Defined.

Section ResponseFields.
Context `{GoLib}.

(** The capture state that the reads of a body leave, as far as [onClose]
    looks at it. *)
Lemma fresh_capture_run (calls : list BodyCall) (stream : bool) (max : Z)
    (record : Record) :
  closed_in calls = false →
  let c := body_run calls (mkCapture stream max "" [] false 0 record) in
  cap_record c = record
  ∧ (stream = false → cap_chunks c = [])
  ∧ (stream = true → str_concat (cap_chunks c) = cap_buf c).
Proof.
  intros Hc. cbv zeta.
  destruct (reads_frame calls (mkCapture stream max "" [] false 0 record) Hc)
    as (_ & _ & _ & _ & Hrec).
  split; [exact Hrec |]. split.
  - intros ->.
    by destruct (tee_reads calls (mkCapture false max "" [] false 0 record)
                   eq_refl Hc) as [_ ->].
  - intros ->.
    destruct (stream_reads calls (mkCapture true max "" [] false 0 record)
                eq_refl Hc) as (k & Hch & Hbuf).
    rewrite Hch, Hbuf. done.
Qed.

(** X21.  Every enqueued record: [SizeResBytes] is the length of the stored
    [ResponseBody]; chunks are present only on a stream record; the stream
    flag is set exactly when the upstream answered with a body that
    [isStreamResponse] classifies as a stream; and the status is the
    upstream's, or 0 when the round trip failed. *)
Theorem enqueued_response_fields (cfg : Config) (w : World) (r : Request)
    (rec : Record) :
  sv_enqueued (ServeHTTP cfg w r) = Some rec →
  SizeResBytes rec = len (ResponseBody rec)
  ∧ (ResponseChunks rec ≠ [] → Stream rec = true)
  ∧ ∃ fw, sv_forwarded (ServeHTTP cfg w r) = Some fw
          ∧ match roundTrip w fw with
            | TransportError _ =>
                Status rec = 0 ∧ Stream rec = false ∧ ResponseBody rec = ""
            | Responded resp =>
                Status rec = upStatusCode resp
                ∧ Stream rec = match upBody resp with
                               | Some _ => isStreamResponse resp
                               | None => false
                               end
            end.
Proof.
  intros Henq.
  destruct (ServeHTTP_enqueued_full cfg w r rec Henq)
    as (name & route & fw & _ & Hfw & _ & _ & Hrec).
  cbv zeta in Hrec.
  assert (∀ x, SizeResBytes (extractModelHint (with_DurationMS x (time_Since_ms w)))
               = SizeResBytes x
             ∧ ResponseBody (extractModelHint (with_DurationMS x (time_Since_ms w)))
               = ResponseBody x
             ∧ ResponseChunks (extractModelHint (with_DurationMS x (time_Since_ms w)))
               = ResponseChunks x
             ∧ Stream (extractModelHint (with_DurationMS x (time_Since_ms w)))
               = Stream x
             ∧ Status (extractModelHint (with_DurationMS x (time_Since_ms w)))
               = Status x) as Hfin.
  { intros x. destruct (finish_response_fields x (time_Since_ms w))
      as (Hb & Hc & Hs & Hst). cbv zeta in *.
    destruct (extractModelHint_fields (with_DurationMS x (time_Since_ms w)))
      as (_ & Hstatus & _). by rewrite Hstatus. }
  destruct (roundTrip w fw) as [err | resp] eqn:Hrt.
  { subst rec. destruct (Hfin (request_record cfg w r name route))
      as (-> & -> & -> & -> & ->).
    split; [done |]. split; [done |]. exists fw. by rewrite Hrt. }
  destruct (upBody resp) as [b |] eqn:Hub.
  2: { subst rec.
       destruct (Hfin (with_Status (request_record cfg w r name route)
                         (upStatusCode resp))) as (-> & -> & -> & -> & ->).
       split; [done |]. split; [done |]. exists fw. by rewrite Hrt, Hub. }
  destruct Hrec as [_ ->].
  set (c0 := mkCapture (isStreamResponse resp) (MaxBodyBytes cfg) "" [] false 0
               (with_Stream (with_Status (request_record cfg w r name route)
                               (upStatusCode resp)) (isStreamResponse resp))).
  destruct (Hfin (onClose (body_run (before_close (proxy_calls b)) c0)))
    as (-> & -> & -> & -> & ->).
  destruct (fresh_capture_run (before_close (proxy_calls b))
              (isStreamResponse resp) (MaxBodyBytes cfg)
              (with_Stream (with_Status (request_record cfg w r name route)
                              (upStatusCode resp)) (isStreamResponse resp))
              (before_close_no_close _)) as (Hrecord & Hns & _).
  fold c0 in Hrecord, Hns.
  unfold onClose. cbn [SizeResBytes ResponseBody ResponseChunks Stream Status
                       with_response].
  rewrite Hrecord. cbn [Stream Status ResponseChunks with_Stream with_Status
                        request_record].
  split; [done |]. split.
  - destruct (isStreamResponse resp); [done |].
    rewrite (Hns eq_refl). by cbn.
  - exists fw. by rewrite Hrt, Hub.
Qed.

(** X22.  When the round trip fails the client is answered with 502 and an empty
    body, and the exchange is still recorded (if the queue has room): with
    status 0, no response body and no stream flag. *)
Theorem transport_error_recorded (cfg : Config) (w : World) (r : Request)
    (fw : Forwarded) (err : string) :
  sv_forwarded (ServeHTTP cfg w r) = Some fw →
  roundTrip w fw = TransportError err →
  sv_status (ServeHTTP cfg w r) = StatusBadGateway
  ∧ sv_body (ServeHTTP cfg w r) = ""
  ∧ (workers_has_room w = true →
     ∃ rec, sv_enqueued (ServeHTTP cfg w r) = Some rec
            ∧ Status rec = 0 ∧ ResponseBody rec = "" ∧ SizeResBytes rec = 0
            ∧ Stream rec = false ∧ ResponseChunks rec = []).
Proof.
  unfold ServeHTTP.
  destruct (GetRouteByMount _ _) as [[name route] |]; [| done].
  destruct (url_Parse _) as [upstream |]; [| done].
  destruct (captureRequestBody _ _ _) as [[r' record'] | e] eqn:Hcap; [| done].
  apply captureRequestBody_record in Hcap as ->.
  set (fw0 := mkForwarded _ _ _ _ _). clearbody fw0.
  destruct (roundTrip w fw0) as [err0 | resp] eqn:Hrt.
  - intros _ _. unfold finishServe.
    destruct (workers_has_room w); cbn [sv_status sv_body sv_enqueued];
      [| done].
    split; [done |]. split; [done |]. intros _. eexists. split; [done |].
    unfold extractModelHint. cbn [RequestBody with_DurationMS].
    destruct (String.eqb _ _); [done |]. by destruct (json_string_field _ _).
  - unfold captureResponseBody.
    destruct (upBody resp) as [b |]; [destruct (up_err b) |];
      cbn [sv_forwarded]; rewrite ?finishServe_forwarded;
      intros [= <-]; congruence.
Qed.

(** X23.  Whether the queue of the storage workers has room makes no difference
    to what the client and the upstream see; without room the record is
    dropped and the drop is logged with the record's id. *)
Theorem queue_full_drops (cfg : Config) (w : World) (r : Request) :
  let full := mkWorld (uuid_New w) (time_Now w) (time_Since_ms w) (roundTrip w) false in
  let room := mkWorld (uuid_New w) (time_Now w) (time_Since_ms w) (roundTrip w) true in
  sv_status (ServeHTTP cfg full r) = sv_status (ServeHTTP cfg room r)
  ∧ sv_body (ServeHTTP cfg full r) = sv_body (ServeHTTP cfg room r)
  ∧ sv_aborted (ServeHTTP cfg full r) = sv_aborted (ServeHTTP cfg room r)
  ∧ sv_forwarded (ServeHTTP cfg full r) = sv_forwarded (ServeHTTP cfg room r)
  ∧ sv_enqueued (ServeHTTP cfg full r) = None
  ∧ ∀ rec, sv_enqueued (ServeHTTP cfg room r) = Some rec →
           sv_logs (ServeHTTP cfg full r)
           = sv_logs (ServeHTTP cfg room r)
             ++ ["Storage worker queue full, dropping record " +:+ uuid_New w].
Proof.
  intros full room.
  assert (∀ st bdy logs fw record,
            let f := finishServe full st bdy logs fw record in
            let g := finishServe room st bdy logs fw record in
            sv_status f = sv_status g ∧ sv_body f = sv_body g
            ∧ sv_aborted f = sv_aborted g ∧ sv_forwarded f = sv_forwarded g
            ∧ sv_enqueued f = None
            ∧ sv_enqueued g = Some (extractModelHint
                                      (with_DurationMS record (time_Since_ms w)))
            ∧ sv_logs f
              = sv_logs g
                ++ ["Storage worker queue full, dropping record "
                    +:+ ID (extractModelHint
                              (with_DurationMS record (time_Since_ms w)))])
    as Hfinish by done.
  pose proof (λ rec Henq, enqueued_request_fields cfg room r rec Henq) as Hfields.
  revert Hfields. unfold ServeHTTP.
  change (uuid_New full) with (uuid_New w). change (uuid_New room) with (uuid_New w).
  change (time_Now full) with (time_Now w). change (time_Now room) with (time_Now w).
  change (roundTrip full) with (roundTrip w).
  change (roundTrip room) with (roundTrip w).
  destruct (GetRouteByMount _ _) as [[name route] |]; [| done].
  destruct (url_Parse _) as [upstream |]; [| done].
  destruct (captureRequestBody _ _ _) as [[r' record'] | e]; [| done].
  set (fw0 := mkForwarded _ _ _ _ _). clearbody fw0.
  assert (∀ st bdy logs record,
            (∀ rec, sv_enqueued (finishServe room st bdy logs fw0 record) = Some rec →
                    ID rec = uuid_New w) →
            sv_status (finishServe full st bdy logs fw0 record)
            = sv_status (finishServe room st bdy logs fw0 record)
            ∧ sv_body (finishServe full st bdy logs fw0 record)
              = sv_body (finishServe room st bdy logs fw0 record)
            ∧ sv_aborted (finishServe full st bdy logs fw0 record)
              = sv_aborted (finishServe room st bdy logs fw0 record)
            ∧ sv_forwarded (finishServe full st bdy logs fw0 record)
              = sv_forwarded (finishServe room st bdy logs fw0 record)
            ∧ sv_enqueued (finishServe full st bdy logs fw0 record) = None
            ∧ ∀ rec, sv_enqueued (finishServe room st bdy logs fw0 record) = Some rec →
                     sv_logs (finishServe full st bdy logs fw0 record)
                     = sv_logs (finishServe room st bdy logs fw0 record)
                       ++ ["Storage worker queue full, dropping record "
                           +:+ uuid_New w]) as Hboth.
  { intros st bdy logs record Hid.
    destruct (Hfinish st bdy logs fw0 record) as (H1 & H2 & H3 & H4 & H5 & H6 & H7).
    cbv zeta in *. repeat split; try done.
    intros rec Hrec. rewrite H7. rewrite H6 in Hrec. injection Hrec as <-.
    by rewrite (Hid _ H6). }
  destruct (roundTrip w fw0) as [err | resp].
  { intros Hf. apply Hboth. intros rec Hrec. by destruct (Hf rec Hrec) as [-> _]. }
  destruct (captureResponseBody _ _ _) as [[record'' [c |]] [err |]].
  1,3,4: intros Hf; apply Hboth; intros rec Hrec; by destruct (Hf rec Hrec) as [-> _].
  destruct (upBody resp) as [b |].
  2: { intros Hf. apply Hboth. intros rec Hrec. by destruct (Hf rec Hrec) as [-> _]. }
  destruct (up_err b); [done |].
  intros Hf. apply Hboth. intros rec Hrec. by destruct (Hf rec Hrec) as [-> _].
Qed.

End ResponseFields.

(** ** The ceiling of the stream capture *)

Lemma str_concat_cons (a : string) (l : list string) :
  str_concat (a :: l) = a +:+ str_concat l.
Proof. reflexivity. Qed.

Lemma stream_reads_ceiling (calls : list BodyCall) (c : Capture) :
  cap_stream c = true →
  closed_in calls = false →
  ∃ k : nat,
    cap_chunks (body_run calls c)
    = cap_chunks c ++ take k (nonempty_reads (reads_of calls))
    ∧ cap_buf (body_run calls c)
      = cap_buf c +:+ str_concat (take k (nonempty_reads (reads_of calls)))
    ∧ (∀ j : nat, (j < k)%nat →
         len (cap_buf c) + len (str_concat (take j (nonempty_reads (reads_of calls))))
         < cap_max c)
    ∧ ((k < length (nonempty_reads (reads_of calls)))%nat →
       cap_max c
       <= len (cap_buf c)
          + len (str_concat (take k (nonempty_reads (reads_of calls))))).
Proof.
  revert c. induction calls as [| [data err |] rest IH]; intros c Hs Hc.
  - exists 0%nat. cbn. rewrite app_nil_r, str_app_nil_r.
    repeat split; try done; lia.
  - rewrite body_run_cons. cbn [body_step reads_of].
    destruct c as [s m buf ch cl runs rec]. cbn [cap_stream] in Hs. subst s.
    unfold bodyCapture_Read, streamCapture_Read.
    cbn [fst cap_stream cap_max cap_buf cap_chunks cap_closed cap_onClose_runs
         cap_record].
    rewrite filter_cons.
    destruct (0 <? len data) eqn:Hpos.
    + apply Z.ltb_lt in Hpos. rewrite decide_True by done.
      destruct (len buf <? m) eqn:Hroom.
      * apply Z.ltb_lt in Hroom.
        destruct (IH (mkCapture true m (buf +:+ data) (ch ++ [data]) cl runs rec)
                    eq_refl Hc) as (k & Hch & Hbuf & Hbelow & Hreached).
        cbn [cap_chunks cap_buf cap_max] in Hch, Hbuf, Hbelow, Hreached.
        exists (S k). rewrite Hch, Hbuf. cbn [take length].
        rewrite str_concat_cons.
        split; [by rewrite <- app_assoc |].
        split; [by rewrite str_app_assoc |]. split.
        -- intros [| j] Hj; cbn [take].
           ++ change (len (str_concat [])) with 0. lia.
           ++ specialize (Hbelow j ltac:(lia)).
              rewrite str_concat_cons, !len_app in *. lia.
        -- intros Hk. specialize (Hreached ltac:(lia)).
           rewrite !len_app in *. lia.
      * apply Z.ltb_ge in Hroom. exists 0%nat.
        rewrite stream_full_stable by done.
        cbn [take cap_chunks cap_buf].
        change (str_concat []) with "". rewrite app_nil_r, str_app_nil_r.
        repeat split; try done; [lia |]. intros _. change (len "") with 0. lia.
    + apply Z.ltb_ge in Hpos. rewrite decide_False by lia.
      by apply (IH (mkCapture true m buf ch cl runs rec)).
  - done.
Qed.

Lemma str_concat_nonempty (l : list string) :
  str_concat (nonempty_reads l) = str_concat l.
Proof.
  induction l as [| d l IH]; [done |]. rewrite filter_cons.
  destruct (decide (0 < len d)) as [| Hzero]; cbn [str_concat foldr];
    fold (str_concat l); fold (str_concat (nonempty_reads l)).
  - by rewrite IH.
  - rewrite IH. destruct d as [| x d]; [done |].
    unfold len in Hzero. cbn in Hzero. lia.
Qed.

Lemma str_concat_take_le (l : list string) (k : nat) :
  len (str_concat (take k l)) <= len (str_concat l).
Proof.
  rewrite <- (take_drop k l) at 2. rewrite str_concat_app, len_app.
  pose proof (len_nonneg (str_concat (drop k l))). lia.
Qed.

(** X24.  The stream capture stops at the ceiling, after the chunk that reaches
    it: for every enqueued stream record the chunks are the first [k]
    non-empty reads; before each of them the bytes captured so far were
    below the ceiling; if a read was left out, the stored body has reached
    the ceiling.  So the stored body exceeds the ceiling by less than its
    last chunk, and a response below the ceiling is stored whole. *)
Theorem stream_capture_ceiling `{GoLib} (cfg : Config) (w : World) (r : Request)
    (rec : Record) :
  sv_enqueued (ServeHTTP cfg w r) = Some rec →
  Stream rec = true →
  ∃ (fw : Forwarded) (resp : UpResponse) (b : UpBody) (k : nat),
    sv_forwarded (ServeHTTP cfg w r) = Some fw
    ∧ roundTrip w fw = Responded resp
    ∧ upBody resp = Some b
    ∧ ResponseChunks rec = take k (nonempty_reads (up_reads b))
    ∧ (∀ j : nat, (j < k)%nat →
         len (str_concat (take j (nonempty_reads (up_reads b)))) < MaxBodyBytes cfg)
    ∧ ((k < length (nonempty_reads (up_reads b)))%nat →
       MaxBodyBytes cfg <= len (ResponseBody rec))
    ∧ (len (str_concat (up_reads b)) < MaxBodyBytes cfg →
       ResponseBody rec = str_concat (up_reads b)).
Proof.
  intros Henq Hstream.
  destruct (ServeHTTP_enqueued_full cfg w r rec Henq)
    as (name & route & fw & _ & Hfw & _ & _ & Hrec).
  destruct (enqueued_response_fields cfg w r rec Henq) as (_ & _ & fw' & Hfw' & Hst).
  assert (fw' = fw) as -> by congruence.
  cbv zeta in Hrec.
  destruct (roundTrip w fw) as [err | resp] eqn:Hrt.
  { destruct Hst as (_ & Hs & _). congruence. }
  destruct (upBody resp) as [b |] eqn:Hub.
  2: { destruct Hst as [_ Hs]. congruence. }
  destruct Hst as [_ Hs]. rewrite Hstream in Hs. symmetry in Hs.
  destruct Hrec as [_ ->]. rewrite Hs.
  set (c0 := mkCapture true (MaxBodyBytes cfg) "" [] false 0
               (with_Stream (with_Status (request_record cfg w r name route)
                               (upStatusCode resp)) true)).
  destruct (stream_reads_ceiling (before_close (proxy_calls b)) c0 eq_refl
              (before_close_no_close _)) as (k & Hch & Hbuf & Hbelow & Hreached).
  rewrite proxy_calls_nonempty_reads in Hch, Hbuf, Hbelow, Hreached.
  cbn [cap_chunks cap_buf cap_max c0 app] in Hch, Hbuf, Hbelow, Hreached.
  rewrite str_app_nil_l in Hbuf. change (len "") with 0 in Hbelow, Hreached.
  destruct (reads_frame (before_close (proxy_calls b)) c0 (before_close_no_close _))
    as (_ & _ & _ & _ & Hrecord).
  set (chunks := take k (nonempty_reads (up_reads b))) in *.
  assert (ResponseChunks (extractModelHint
            (with_DurationMS (onClose (body_run (before_close (proxy_calls b)) c0))
               (time_Since_ms w))) = chunks
          ∧ ResponseBody (extractModelHint
              (with_DurationMS (onClose (body_run (before_close (proxy_calls b)) c0))
                 (time_Since_ms w))) = str_concat chunks) as [Hchunks Hbody].
  { destruct (finish_response_fields
                (onClose (body_run (before_close (proxy_calls b)) c0))
                (time_Since_ms w)) as (-> & -> & _ & _).
    unfold onClose. cbn [ResponseChunks ResponseBody with_response].
    rewrite Hch, Hbuf, Hrecord. split; [| done].
    destruct (0 <? _) eqn:Hlen; [done |]. apply Z.ltb_ge in Hlen.
    cbn [c0 cap_record ResponseChunks with_Stream with_Status request_record].
    destruct chunks; [done | cbn in Hlen; lia]. }
  exists fw, resp, b, k. rewrite Hchunks, Hbody.
  split; [done |]. split; [done |]. split; [done |]. split; [done |].
  split; [intros j Hj; specialize (Hbelow j Hj); lia |].
  split; [intros Hk; specialize (Hreached Hk); lia |].
  intros Hsmall. rewrite <- (str_concat_nonempty (up_reads b)).
  destruct (decide (k < length (nonempty_reads (up_reads b)))%nat) as [Hk | Hk].
  - specialize (Hreached Hk).
    pose proof (str_concat_take_le (nonempty_reads (up_reads b)) k) as Hle.
    rewrite str_concat_nonempty in Hle. fold chunks in Hle. lia.
  - unfold chunks. by rewrite take_ge by lia.
Qed.

Lemma stream_capture_ceiling_witness :
  ∃ rec : Record,
    sv_enqueued (ServeHTTP cfg_1MB (world_of (sse_response ["data: 1"; ""; "data: 2"]))
                   (post_chat (mkReader "{}" None))) = Some rec
    ∧ ResponseBody rec = "data: 1data: 2".
Proof.
  assert (∃ rec : Record,
            sv_enqueued (ServeHTTP cfg_1MB
                           (world_of (sse_response ["data: 1"; ""; "data: 2"]))
                           (post_chat (mkReader "{}" None))) = Some rec
            ∧ Stream rec = true) as (rec & Henq & Hs).
  { vm_compute. eexists. split; reflexivity. }
  exists rec. split; [exact Henq |].
  destruct (stream_capture_ceiling cfg_1MB
              (world_of (sse_response ["data: 1"; ""; "data: 2"]))
              (post_chat (mkReader "{}" None)) rec Henq Hs)
    as (fw & resp & b & k & Hfw & Hrt & Hub & _ & _ & _ & Hwhole).
  cbn in Hrt. injection Hrt as <-. cbn in Hub. injection Hub as <-.
  apply Hwhole. vm_compute. reflexivity.
Defined.

Lemma enqueued_response_fields_witness :
  ∃ rec : Record,
    sv_enqueued (ServeHTTP cfg_1MB (world_of (json_response ["{}"]))
                   (post_chat (mkReader "{}" None))) = Some rec
    ∧ SizeResBytes rec = len (ResponseBody rec).
Proof.
  destruct (post_chat_json_enqueued ["{}"]) as [[rec Henq] _].
  exists rec. split; [exact Henq |].
  exact (proj1 (enqueued_response_fields cfg_1MB (world_of (json_response ["{}"]))
                  (post_chat (mkReader "{}" None)) rec Henq)).
Defined.

Lemma transport_error_recorded_witness :
  let w := mkWorld "id-2" 2000 3 (λ _, TransportError "connection refused") true in
  sv_status (ServeHTTP cfg_1MB w (post_chat (mkReader "{}" None))) = 502
  ∧ sv_body (ServeHTTP cfg_1MB w (post_chat (mkReader "{}" None))) = "".
Proof.
  intros w.
  destruct (transport_error_recorded cfg_1MB w (post_chat (mkReader "{}" None))
              (mkForwarded "POST" "https" "api.openai.com" "/v1/chat/completions"
                 (Some "{}"))
              "connection refused") as (Hst & Hb & _).
  - vm_compute. reflexivity.
  - reflexivity.
  - split; [exact Hst | exact Hb].
Defined.

(** ** Bodies within the ceiling, and no ceiling *)

(** X25.  A request body that is no longer than the ceiling is forwarded to the
    upstream as the client sent it. *)
Theorem body_within_ceiling_forwarded `{GoLib} (cfg : Config) (w : World)
    (r : Request) (rd : Reader) (fw : Forwarded) :
  rqBody r = Some rd →
  len (rd_data rd) <= MaxBodyBytes cfg →
  sv_forwarded (ServeHTTP cfg w r) = Some fw →
  fwBody fw = Some (rd_data rd).
Proof.
  intros Hb Hlen Hfw.
  rewrite (ServeHTTP_forwards_captured cfg w r rd fw Hb Hfw).
  rewrite str_take_all; [done |]. unfold len in Hlen. lia.
Qed.

Lemma body_within_ceiling_forwarded_witness :
  ∃ fw, sv_forwarded (ServeHTTP cfg_1MB (world_of (json_response ["{}"]))
                        (post_chat (mkReader "{}" None))) = Some fw
        ∧ fwBody fw = Some "{}".
Proof.
  destruct (post_chat_json_enqueued ["{}"]) as [_ Hfw].
  eexists. split; [exact Hfw |].
  apply (body_within_ceiling_forwarded cfg_1MB (world_of (json_response ["{}"]))
           (post_chat (mkReader "{}" None)) (mkReader "{}" None) _ eq_refl);
    [vm_compute; discriminate | exact Hfw].
Defined.

(** X26.  [MaxBodyBytes] is the configured number of mebibytes times 1048576 as
    long as that fits an [int64], that is below 2^43 mebibytes in absolute
    value. *)
Theorem MaxBodyBytes_mebibytes (cfg : Config) :
  - 2 ^ 43 <= MaxBodyMB cfg < 2 ^ 43 →
  MaxBodyBytes cfg = MaxBodyMB cfg * 1048576.
Proof.
  intros Hmb. unfold MaxBodyBytes.
  rewrite (wrap64_small (MaxBodyMB cfg * 1024)) by lia.
  rewrite wrap64_small by lia. lia.
Qed.

Lemma MaxBodyBytes_mebibytes_witness :
  MaxBodyBytes (mkConfig 20 10 ∅) = 20971520.
Proof.
  exact (MaxBodyBytes_mebibytes (mkConfig 20 10 ∅) ltac:(cbn; lia)).
Defined.

(** X27.  With a ceiling of zero or less, as when the configuration leaves
    [max_body_mb] out, [captureRequestBody] never fails and captures
    nothing: the record's request body is empty and so is the body left
    for the proxy, whatever the client sent. *)
Theorem captureRequestBody_without_ceiling (cfg : Config) (r : Request)
    (rd : Reader) (record : Record) :
  MaxBodyBytes cfg <= 0 →
  rqBody r = Some rd →
  captureRequestBody cfg r record
  = inl (mkRequest (rqMethod r) (rqPath r) (rqURL r) (Some (bytes_NewReader "")),
         with_request record "" 0).
Proof.
  intros Hmax Hb. unfold captureRequestBody, io_LimitReader. rewrite Hb.
  destruct (Z.leb_spec (MaxBodyBytes cfg) 0); [done | lia].
Qed.

Lemma captureRequestBody_without_ceiling_witness :
  captureRequestBody (mkConfig 0 10 ∅)
    (post_chat (mkReader "{}" (Some "unexpected EOF"))) recA
  = inl (mkRequest "POST" "/openai/chat/completions" "/openai/chat/completions"
           (Some (bytes_NewReader "")),
         with_request recA "" 0).
Proof.
  exact (captureRequestBody_without_ceiling (mkConfig 0 10 ∅)
           (post_chat (mkReader "{}" (Some "unexpected EOF")))
           (mkReader "{}" (Some "unexpected EOF")) recA
           ltac:(vm_compute; discriminate) eq_refl).
Defined.

(** ** The storage worker *)

(** X28.  A worker never logs a failure, for [Save] of the memory store never
    fails; after it has saved the records it received, [Get] of an id
    answers with the last record received under that id, and as before for
    an id that no received record has. *)
Theorem storageWorker_saves (s : Store (list string) (option string))
    (received : list Record) :
  snd (storageWorker s received) = []
  ∧ ∀ id, Get (fst (storageWorker s received)) id
          = match last (filter (λ r, ID r = id) received) with
            | Some r => inl r
            | None => Get s id
            end.
Proof.
  revert s. induction received as [| r rest IH]; intros s; [done |].
  change (storageWorker s (r :: rest))
    with (storageWorker (mkStore (<[ID r := r]> (records s))) rest).
  destruct (IH (mkStore (<[ID r := r]> (records s)))) as [Hlog Hget].
  split; [exact Hlog |].
  intros id. rewrite Hget, filter_cons.
  destruct (decide (ID r = id)) as [<- | Hne].
  - destruct (filter _ rest) as [| r' l'] eqn:Hf.
    + cbn [last]. unfold Get. cbn [records]. by rewrite lookup_insert_eq.
    + change (last (r :: r' :: l')) with (last (r' :: l')).
      destruct (last (r' :: l')) eqn:Hlast; [done |].
      by apply last_None in Hlast.
  - destruct (last _); [done |].
    unfold Get. cbn [records]. by rewrite lookup_insert_ne.
Qed.

(** X29.  A record that [ServeHTTP] enqueues is found under the id taken at the
    start of its request once a worker has saved it. *)
Theorem enqueued_then_saved `{GoLib} (cfg : Config) (w : World) (r : Request)
    (rec : Record) (s : Store (list string) (option string)) :
  sv_enqueued (ServeHTTP cfg w r) = Some rec →
  Get (fst (storageWorker s [rec])) (uuid_New w) = inl rec.
Proof.
  intros Henq.
  destruct (enqueued_request_fields cfg w r rec Henq) as (Hid & _).
  destruct (storageWorker_saves s [rec]) as [_ Hget].
  rewrite Hget, filter_cons, decide_True by done. done.
Qed.

Lemma enqueued_then_saved_witness :
  ∃ rec : Record,
    sv_enqueued (ServeHTTP cfg_1MB (world_of (json_response ["{}"]))
                   (post_chat (mkReader "{}" None))) = Some rec
    ∧ Get (fst (storageWorker example_store [rec])) "id-1" = inl rec.
Proof.
  destruct (post_chat_json_enqueued ["{}"]) as [[rec Henq] _].
  exists rec. split; [exact Henq |].
  exact (enqueued_then_saved cfg_1MB (world_of (json_response ["{}"]))
           (post_chat (mkReader "{}" None)) rec example_store Henq).
Defined.

(** ** Chunk replay as an event stream *)

Lemma sse_lines_one_line (line rest : string) :
  one_line line = true →
  sse_lines (line +:+ String LF rest) = line :: sse_lines rest.
Proof.
  induction line as [| c line IH]; intros Hline; [done |].
  cbn [one_line] in Hline. apply andb_true_iff in Hline as [Hc Hline].
  apply andb_true_iff in Hc as [Hlf Hcr].
  apply negb_true_iff in Hlf, Hcr.
  rewrite str_app_cons. cbn [sse_lines]. rewrite Hlf, Hcr, IH by done. done.
Qed.

Lemma str_take_app (a b : string) : str_take (String.length a) (a +:+ b) = a.
Proof.
  induction a as [| c a IH]; [by destruct b |].
  rewrite str_app_cons. cbn. by rewrite IH.
Qed.

Lemma TrimSuffix_app (a b : string) : TrimSuffix (a +:+ b) b = a.
Proof.
  unfold TrimSuffix, HasSuffix. rewrite str_length_app.
  replace (String.length a + String.length b - String.length b)%nat
    with (String.length a) by lia.
  rewrite str_drop_app, String.eqb_refl, str_take_app.
  by replace (String.length b <=? String.length a + String.length b)%nat with true
    by (symmetry; apply Nat.leb_le; lia).
Qed.

(** A line [data: chunk] and an empty line, read with empty buffers, are
    one event of type [message] with the chunk as data. *)
Lemma sse_data_frame (chunk : string) (lines : list string) :
  sse_interpret (("data: " +:+ chunk) :: "" :: lines) (mkSseBuffers "" "")
  = mkSseEvent "message" chunk :: sse_interpret lines (mkSseBuffers "" "").
Proof.
  rewrite !str_app_cons, str_app_nil_l.
  cbn -[String.append TrimSuffix].
  unfold sse_field. cbn -[String.append TrimSuffix].
  unfold sse_dispatch. cbn [buf_data buf_type].
  rewrite str_app_nil_l, TrimSuffix_app.
  destruct chunk; done.
Qed.

Lemma replayed_events (chunks : list string) :
  Forall (λ chunk, one_line chunk = true) chunks →
  sse_events (str_concat (map (λ chunk, "data: " +:+ chunk +:+ nl +:+ nl) chunks))
  = map (mkSseEvent "message") chunks.
Proof.
  intros Hchunks. unfold sse_events.
  assert (∀ l, TrimPrefix
                 (str_concat (map (λ chunk, "data: " +:+ chunk +:+ nl +:+ nl) l)) bom
               = str_concat (map (λ chunk, "data: " +:+ chunk +:+ nl +:+ nl) l)) as ->.
  { by intros [| chunk l]. }
  induction Hchunks as [| chunk rest Hchunk _ IH]; [done |].
  cbn [map]. rewrite str_concat_cons.
  set (tail := str_concat (map (λ chunk0, "data: " +:+ chunk0 +:+ nl +:+ nl) rest)) in *.
  replace (("data: " +:+ chunk +:+ nl +:+ nl) +:+ tail)
    with (("data: " +:+ chunk) +:+ String LF (String LF tail)).
  2: { rewrite !str_app_assoc. reflexivity. }
  rewrite sse_lines_one_line by (by rewrite !str_app_cons, str_app_nil_l).
  cbn [sse_lines]. change (Ascii.eqb LF LF) with true. cbv iota.
  by rewrite sse_data_frame, IH.
Qed.

(** X30.  For every stored record: if it is a stream with at least one
    chunk and no chunk has a line feed or a carriage return in it, the
    replay (on a writer that can flush, as the server's writers can)
    answers 200 with content type [text/event-stream], writes the chunks
    in order, each between [data: ] and two line feeds, flushing after
    each, and a client reads from it one event of type [message] per
    chunk, in the order of the chunks, with the chunk as its data; if the
    record is not a stream or has no chunk, the answer is 404 "No chunks
    available for this record", which differs from the 404 "Record not
    found" given for an id that is not in the store. *)
Theorem chunk_replay_events `{GoLib} (s : Store (list string) (option string))
    (id : string) (record : Record) :
  records s !! id = Some record →
  (Stream record = true → ResponseChunks record ≠ [] →
     Forall (λ chunk, one_line chunk = true) (ResponseChunks record) →
     let reply := handleRequestChunks s true id in
     status reply = StatusOK
     ∧ headers reply !! "Content-Type" = Some "text/event-stream"
     ∧ without_sleeps (effects reply)
       = flat_map (λ chunk, [Write ("data: " +:+ chunk +:+ nl +:+ nl); Flush])
           (ResponseChunks record)
     ∧ sse_events (body reply) = map (mkSseEvent "message") (ResponseChunks record))
  ∧ (Stream record = false ∨ ResponseChunks record = [] →
     ∀ (isFlusher isFlusher' : bool) (missing : string),
       records s !! missing = None →
       let no_data := handleRequestChunks s isFlusher id in
       let not_found := handleRequestChunks s isFlusher' missing in
       status no_data = StatusNotFound
       ∧ body no_data = "No chunks available for this record" +:+ nl
       ∧ status not_found = StatusNotFound
       ∧ body not_found = "Record not found" +:+ nl
       ∧ no_data ≠ not_found).
Proof.
  intros Hget. split.
  - intros Hstream Hchunks Hlines. unfold handleRequestChunks, Get.
    rewrite Hget, Hstream.
    destruct (ResponseChunks record) as [| chunk rest] eqn:Hch; [done |].
    cbn [negb orb length].
    replace (Z.of_nat (S (length rest)) =? 0) with false
      by (symmetry; apply Z.eqb_neq; lia).
    cbn [status headers effects].
    destruct (replayChunks_frames (chunk :: rest) 0 (Z.of_nat (S (length rest))))
      as [Hw Hs].
    split; [done |]. split; [done |]. split; [done |].
    unfold body. cbn [effects]. rewrite Hw. by apply replayed_events.
  - intros Hnodata isFlusher isFlusher' missing Hmiss.
    unfold handleRequestChunks, Get. rewrite Hget, Hmiss, not_found_error.
    assert (negb (Stream record) || (Z.of_nat (length (ResponseChunks record)) =? 0)
            = true) as ->.
    { destruct Hnodata as [-> | ->]; [done |]. cbn. apply orb_true_r. }
    repeat split; try done.
Qed.

Lemma chunk_replay_events_witness :
  sse_events (body (handleRequestChunks example_store true "B"))
  = [mkSseEvent "message" "data: 1"; mkSseEvent "message" "data: 2"]
  ∧ body (handleRequestChunks example_store true "A")
    = "No chunks available for this record" +:+ nl
  ∧ body (handleRequestChunks example_store true "C") = "Record not found" +:+ nl.
Proof.
  split.
  - destruct (chunk_replay_events example_store "B" recB) as [Hplay _];
      [vm_compute; reflexivity |].
    destruct (Hplay eq_refl) as (_ & _ & _ & Hev);
      [done | repeat constructor |].
    rewrite Hev. reflexivity.
  - destruct (chunk_replay_events example_store "A" recA) as [_ Hnone];
      [vm_compute; reflexivity |].
    destruct (Hnone (or_introl eq_refl) true true "C") as (_ & Hb & _ & Hb' & _);
      [vm_compute; reflexivity |].
    split; [exact Hb | exact Hb'].
Defined.
